(** * SortIT: planning and executing a bulk reorganisation of files

    A shallow embedding of [data_processing_common.py]: the name sanitizer,
    the three planners (by date, by type, by metadata) and the executor of
    planned operations, and of the worker of [main.py] that calls them,
    followed by the properties of the specification that were checked
    against them and by further properties of the code.

    Conventions of the model.
    - A Python [str] is a list of characters, a character is its code point
      ([str := list N]). Inside ASCII the classes of characters of [re],
      [str.strip] and [str.lower] are computed; outside ASCII they are those
      of the Unicode database of the interpreter, a parameter of the model
      ([Unicode]).
    - [os.path] is [posixpath] (separator [/], extension separator [.]).
    - A Python [set] of strings is a [gset str], a [dict] keyed by strings a
      [gmap str _]; a dictionary literal that is only iterated stays an
      association list in its insertion order.
    - A function that mutates an argument returns the new value next to its
      result; a function that may raise returns a [result].
    - The operating system is an interface ([OS]) whose calls may raise;
      opening the log file and writing to it is one of these calls.
      Standard output is a text sink kept apart from the file-system
      state. *)

From Stdlib Require Import Ascii String ZArith NArith Lia.
From stdpp Require Import base option list gmap strings pretty.

Local Open Scope Z_scope.
Local Open Scope list_scope.

(** ** Characters *)

(** A character is its code point, [ord(c)]. *)
Abbreviation char := N.

(** The character written [a] in the source. *)
Definition code (a : ascii) : char := N_of_ascii a.
Arguments code a%_char : simpl never.

Abbreviation str := (list char).

(** A string literal of the source. *)
Definition of_string (s : string) : str := code <$> list_ascii_of_string s.
Notation "$ s" := (of_string s) (at level 1, s at level 0, format "$ s").

Definition chr_eqb (a b : char) : bool := N.eqb a b.

(** The classes of the ASCII characters. [is_punctuation_ascii] is
    [string.punctuation]. *)
Definition is_ascii (c : char) : bool := (c <? 128)%N.
Definition is_upper (c : char) : bool := ((65 <=? c)%N && (c <=? 90)%N)%bool.
Definition is_lower (c : char) : bool := ((97 <=? c)%N && (c <=? 122)%N)%bool.
Definition is_digit (c : char) : bool := ((48 <=? c)%N && (c <=? 57)%N)%bool.
Definition is_space_ascii (c : char) : bool :=
  (((9 <=? c)%N && (c <=? 13)%N) || ((28 <=? c)%N && (c <=? 32)%N))%bool.
Definition is_punctuation_ascii (c : char) : bool :=
  (((33 <=? c)%N && (c <=? 47)%N) || ((58 <=? c)%N && (c <=? 64)%N)
   || ((91 <=? c)%N && (c <=? 96)%N) || ((123 <=? c)%N && (c <=? 126)%N))%bool.

(** The lower-case letter of an ASCII capital; any other character is left
    as it is. *)
Definition lower_chr (c : char) : char :=
  if is_upper c then (c + 32)%N else c.

Definition lower_ascii (s : str) : str := map lower_chr s.

(** A class of characters, given by its ASCII members and by its members
    outside ASCII. *)
Definition char_class (inside outside : char → bool) (c : char) : bool :=
  if is_ascii c then inside c else outside c.

(** [\w] inside ASCII: letters, digits and the underscore. *)
Definition is_word_ascii (c : char) : bool :=
  (is_lower c || is_upper c || is_digit c || chr_eqb c (code "_"))%bool.

(** ** The Unicode character database

    What the interpreter knows about the characters outside ASCII:
    - [u_alnum c]: [c.isalnum()], the characters that [\w] matches;
    - [u_space c]: [c.isspace()], the characters that [\s] matches and that
      [str.strip()] removes;
    - [u_punct c]: [c] is a punctuation mark or a symbol (general category P
      or S);
    - [u_lower s]: [s.lower()] for a string that is not all ASCII;
    - [u_ignorecase a c]: the character [c] matches the letter [a] of a
      pattern under [re.IGNORECASE] (as U+212A matches [k]).

    Two facts of the database are part of the interface: a character that
    matches a lowercase ASCII letter when case is ignored is itself
    alphanumeric, and lower-casing a string of word characters yields no
    punctuation. *)
Class Unicode := {
  u_alnum : char → bool;
  u_space : char → bool;
  u_punct : char → bool;
  u_lower : str → str;
  u_ignorecase : char → char → bool;
  u_ignorecase_alnum : ∀ a c,
    is_lower a = true → u_ignorecase a c = true → u_alnum c = true;
  u_lower_word : ∀ s,
    Forall (λ c, char_class is_word_ascii u_alnum c = true) s →
    Forall (λ c, c = code "_" ∨ char_class is_punctuation_ascii u_punct c = false)
      (u_lower s)
}.

Definition is_space `{U : Unicode} (c : char) : bool :=
  char_class is_space_ascii u_space c.

Definition is_punctuation `{U : Unicode} (c : char) : bool :=
  char_class is_punctuation_ascii u_punct c.

(** ** Python strings *)

(** [s.startswith(c)] and [s.endswith(c)] for a one-character [c]. *)
Definition startswith (c : char) (s : str) : bool :=
  match s with
  | x :: _ => chr_eqb x c
  | [] => false
  end.

Definition endswith (c : char) (s : str) : bool :=
  match last s with
  | Some x => chr_eqb x c
  | None => false
  end.

(** [s.rfind(c)]: the index of the last [c] in [s], or [-1]. *)
Fixpoint rfind (c : char) (s : str) : Z :=
  match s with
  | [] => -1
  | x :: t =>
      let r := rfind c t in
      if 0 <=? r then r + 1 else if chr_eqb x c then 0 else -1
  end.

(** Slices [l[:i]] and [l[i:]] for a Python integer [i]: a negative index
    counts from the end, and the index is clamped to the sequence. *)
Definition clamp_index (i : Z) (len : nat) : nat :=
  let n := Z.of_nat len in
  Z.to_nat (Z.min n (Z.max 0 (if i <? 0 then i + n else i))).

Definition slice_to {A} (l : list A) (i : Z) : list A := take (clamp_index i (length l)) l.
Definition slice_from {A} (l : list A) (i : Z) : list A := drop (clamp_index i (length l)) l.

(** [s.lower()]. *)
Definition lower `{U : Unicode} (s : str) : str :=
  if forallb is_ascii s then lower_ascii s else u_lower s.

(** [s.lstrip], [s.rstrip] and [s.strip] of the characters satisfying [P]. *)
Fixpoint lstrip (P : char → bool) (s : str) : str :=
  match s with
  | [] => []
  | c :: t => if P c then lstrip P t else s
  end.

Definition rstrip (P : char → bool) (s : str) : str := rev (lstrip P (rev s)).
Definition strip (P : char → bool) (s : str) : str := rstrip P (lstrip P s).

(** [s.split(c)]: the pieces between the occurrences of [c]; never empty. *)
Fixpoint split (c : char) (s : str) : list str :=
  match s with
  | [] => [[]]
  | x :: t =>
      if chr_eqb x c then [] :: split c t
      else match split c t with
           | h :: r => (x :: h) :: r
           | [] => [[x]]
           end
  end.

(** [c.join(l)]. *)
Fixpoint str_join (c : char) (l : list str) : str :=
  match l with
  | [] => []
  | [w] => w
  | w :: r => w ++ c :: str_join c r
  end.

(** The line feed that [print] and the log writer put after a message. *)
Definition newline : str := [10%N].

(** [str(n)] for a non-negative integer. *)
Definition str_of_nat (n : nat) : str := of_string (pretty n).

(** ** [os.path] *)

Module path.

Definition sep : char := code "/".
Definition extsep : char := code ".".

(** [os.path.join(a, b)]. *)
Definition join (a b : str) : str :=
  if startswith sep b then b
  else if (bool_decide (a = []) || endswith sep a)%bool then a ++ b
  else a ++ sep :: b.

(** [os.path.basename(p)]. *)
Definition basename (p : str) : str := slice_from p (rfind sep p + 1).

(** [os.path.dirname(p)]. *)
Definition dirname (p : str) : str :=
  let head := slice_to p (rfind sep p + 1) in
  if (negb (bool_decide (head = [])) && negb (forallb (fun c => chr_eqb c sep) head))%bool
  then rstrip (fun c => chr_eqb c sep) head
  else head.

(** [os.path.splitext(p)]: the extension starts at the last dot of the
    last component, unless only dots come before it in that component. *)
Definition splitext (p : str) : str * str :=
  let sepIndex := rfind sep p in
  let dotIndex := rfind extsep p in
  if sepIndex <? dotIndex then
    let leading := slice_to (slice_from p (sepIndex + 1)) (dotIndex - (sepIndex + 1)) in
    if existsb (fun c => negb (chr_eqb c extsep)) leading
    then (slice_to p dotIndex, slice_from p dotIndex)
    else (p, [])
  else (p, []).

End path.

(** ** [sanitize_filename] *)

Module sanitize.

(** [\w] and [\s]; [str.strip()] removes the characters of [\s]. *)
Definition is_word `{U : Unicode} (c : char) : bool :=
  char_class is_word_ascii u_alnum c.

(** The alternatives of the first pattern, in its order. *)
Definition stop_words : list str :=
  [
    $"jpg"; $"jpeg"; $"png"; $"gif"; $"bmp"; $"txt"; $"md"; $"pdf"; $"docx";
    $"xls"; $"xlsx"; $"csv"; $"ppt"; $"pptx"; $"image"; $"picture"; $"photo";
    $"this"; $"that"; $"these"; $"those"; $"here"; $"there"; $"please";
    $"note"; $"additional"; $"notes"; $"folder"; $"name"; $"sure"; $"heres";
    $"a"; $"an"; $"the"; $"and"; $"of"; $"in"; $"to"; $"for"; $"on"; $"with";
    $"your"; $"answer"; $"should"; $"be"; $"only"; $"summary"; $"summarize";
    $"text"; $"category"
  ].

(** [\b] between the character before the position ([None] at the start)
    and the text [s] that follows it. *)
Definition is_word_opt `{U : Unicode} (o : option char) : bool := from_option is_word false o.
Definition word_boundary `{U : Unicode} (prev : option char) (s : str) : bool :=
  xorb (is_word_opt prev) (is_word_opt (head s)).

(** The character [c] of the text against the letter [a] of the pattern
    under [re.IGNORECASE]. *)
Definition match_chr_ci `{U : Unicode} (a c : char) : bool :=
  if is_ascii c then chr_eqb (lower_chr a) (lower_chr c) else u_ignorecase a c.

(** The literal [w] matched at the head of [s] under [re.IGNORECASE]:
    the last character read (or [prev] when [w] is empty) and the rest of
    the text after the match. *)
Fixpoint match_ci `{U : Unicode} (w : str) (prev : option char) (s : str)
  : option (option char * str) :=
  match w, s with
  | [], _ => Some (prev, s)
  | a :: w', c :: s' =>
      if match_chr_ci a c then match_ci w' (Some c) s' else None
  | _ :: _, [] => None
  end.

(** [(w1|w2|...)\b] at the head of [s]: the alternatives are tried in
    order, and one is kept when a word boundary follows its match. The
    result is the length of the match. *)
Fixpoint match_alternatives `{U : Unicode} (alts : list str) (prev : option char) (s : str)
  : option nat :=
  match alts with
  | [] => None
  | w :: alts' =>
      match match_ci w prev s with
      | Some (before, rest) =>
          if word_boundary before rest then Some (length w)
          else match_alternatives alts' prev s
      | None => match_alternatives alts' prev s
      end
  end.

Definition match_stop_word `{U : Unicode} (prev : option char) (s : str) : option nat :=
  if word_boundary prev s then match_alternatives stop_words prev s else None.

(** [re.sub(pattern, '', s)] for a pattern that matches no empty text:
    the text is scanned from the left; [skip] characters of a match found
    earlier are still to be dropped, and outside a match the pattern is
    tried at every position. [pattern prev s] is the length of the match
    at the head of [s], where [prev] is the character before it. *)
Fixpoint sub_empty (pattern : option char → str → option nat)
    (skip : nat) (prev : option char) (s : str) : str :=
  match s with
  | [] => []
  | c :: t =>
      match skip with
      | S k => sub_empty pattern k (Some c) t
      | O =>
          match pattern prev s with
          | Some n => sub_empty pattern (Nat.pred n) (Some c) t
          | None => c :: sub_empty pattern O (Some c) t
          end
      end
  end.

(** [re.sub(r'\b(...)\b', '', name, flags=re.IGNORECASE)]. *)
Definition remove_stop_words `{U : Unicode} (name : str) : str :=
  sub_empty match_stop_word O None name.

(** [re.sub(r'[^\w\s]', '', name)]. *)
Definition remove_non_word `{U : Unicode} (s : str) : str :=
  filter (fun c => (is_word c || is_space c)%bool = true) s.

(** [re.sub(r'[\s_]+', '_', s)]; [in_run] tells that the character before
    belongs to a run already replaced. *)
Definition is_space_or_underscore `{U : Unicode} (c : char) : bool :=
  (is_space c || chr_eqb c (code "_"))%bool.

Fixpoint collapse `{U : Unicode} (in_run : bool) (s : str) : str :=
  match s with
  | [] => []
  | c :: t =>
      if is_space_or_underscore c
      then (if in_run then collapse true t else code "_" :: collapse true t)
      else c :: collapse false t
  end.

Definition untitled : str := $"untitled".

Definition sanitize_filename `{U : Unicode} (name : str) (max_length max_words : Z) : str :=
  let name := fst (path.splitext name) in
  let name := remove_stop_words name in
  let sanitized := strip is_space (remove_non_word name) in
  let sanitized := collapse false sanitized in
  let sanitized := lower sanitized in
  let sanitized := strip (fun c => chr_eqb c (code "_")) sanitized in
  let words := split (code "_") sanitized in
  let limited_words := filter (fun w : str => w ≠ []) words in
  let limited_words := slice_to limited_words max_words in
  let limited_name := str_join (code "_") limited_words in
  if bool_decide (limited_name = []) then untitled else slice_to limited_name max_length.

(** The defaults of the signature. *)
Definition default_max_length : Z := 50.
Definition default_max_words : Z := 5.

End sanitize.

(** ** Planned operations *)

Record Operation := {
  source : str;
  destination : str;
  link_type : str;
  folder_name : option str;
  new_file_name : option str
}.

Definition hardlink : str := $"hardlink".

(** ** Exceptions and the operating system *)

(** An exception is represented by its text, [str(e)]. *)
Abbreviation exn := (list char).

Inductive result (A : Type) : Type :=
  | Ok (a : A)
  | Raise (e : exn).
Arguments Ok {A} a.
Arguments Raise {A} e.

(** The calls the program makes to the operating system and to the
    library. A call that changes the file system returns the new state and
    the exception it raised, if any.
    - [fromtimestamp t] is [datetime.datetime.fromtimestamp(t)], which
      raises for a time stamp outside the range of dates;
    - [strftime_Y d] and [strftime_B d] are [d.strftime('%Y')] and
      [d.strftime('%B')];
    - [append_text f text] is [with open(f, 'a') as h: h.write(text)]: the
      file is created when it does not exist, and the exception of [open]
      or of the write leaves the statement. *)
Class OS := {
  FS : Type;
  mtime : Type;
  datetime : Type;
  os_getmtime : str → FS → result mtime;
  fromtimestamp : mtime → result datetime;
  strftime_Y : datetime → str;
  strftime_B : datetime → str;
  os_makedirs : str → FS → FS * option exn;
  os_link : str → str → FS → FS * option exn;
  os_symlink : str → str → FS → FS * option exn;
  append_text : str → str → FS → FS * option exn
}.

(** ** [process_files_by_date] *)

(** The parameters [dry_run], [silent] and [log_file] of the two planners
    below are not used by their bodies and are left out. *)

Fixpoint process_files_by_date `{os : OS} (fs : FS) (file_paths : list str) (output_path : str)
  : result (list Operation) :=
  match file_paths with
  | [] => Ok []
  | file_path :: rest =>
      match os_getmtime file_path fs with
      | Raise e => Raise e
      | Ok mod_time =>
          match fromtimestamp mod_time with
          | Raise e => Raise e
          | Ok mod_datetime =>
              let year := strftime_Y mod_datetime in
              let month := strftime_B mod_datetime in
              let dir_path := path.join (path.join output_path year) month in
              let new_file_name := path.basename file_path in
              let new_file_path := path.join dir_path new_file_name in
              let operation :=
                {| source := file_path; destination := new_file_path;
                   link_type := hardlink; folder_name := None; new_file_name := None |} in
              match process_files_by_date fs rest output_path with
              | Raise e => Raise e
              | Ok operations => Ok (operation :: operations)
              end
          end
      end
  end.

(** ** [process_files_by_type] *)

Definition file_categories : list (str * list (str * list str)) :=
  [
    ($"images",
     [
      ($"raster_images",
        [
          $".jpg"; $".jpeg"; $".png"; $".gif"; $".bmp"; $".tiff"; $".tif";
          $".webp"; $".heic"; $".heif"; $".raw"; $".cr2"; $".nef"; $".arw"
        ]);
      ($"vector_images",
        [
          $".svg"; $".ai"; $".eps"; $".cdr"
        ]);
      ($"photoshop",
        [
          $".psd"; $".psb"; $".xcf"
        ]);
      ($"icons",
        [
          $".ico"; $".icns"
        ])
     ]);
    ($"documents",
     [
      ($"plain_text",
        [
          $".txt"; $".md"; $".markdown"; $".rst"; $".rtf"; $".tex"; $".log"
        ]);
      ($"word_processing",
        [
          $".doc"; $".docx"; $".odt"; $".pages"; $".wpd"
        ]);
      ($"spreadsheets",
        [
          $".xls"; $".xlsx"; $".xlsm"; $".ods"; $".numbers"; $".csv"; $".tsv"
        ]);
      ($"presentations",
        [
          $".ppt"; $".pptx"; $".odp"; $".key"
        ]);
      ($"pdf",
        [
          $".pdf"
        ]);
      ($"ebooks",
        [
          $".epub"; $".mobi"; $".azw"; $".azw3"; $".fb2"; $".djvu"; $".cbr";
          $".cbz"
        ]);
      ($"technical_docs",
        [
          $".xml"; $".xhtml"; $".dtd"; $".sgml"; $".yaml"; $".yml"; $".json";
          $".toml"
        ])
     ]);
    ($"audio",
     [
      ($"music",
        [
          $".mp3"; $".aac"; $".flac"; $".alac"; $".wav"; $".wma"; $".ogg";
          $".opus"
        ]);
      ($"voice",
        [
          $".m4a"; $".amr"; $".aiff"; $".aif"; $".aifc"
        ]);
      ($"production",
        [
          $".mid"; $".midi"; $".aup"; $".sesx"; $".band"
        ])
     ]);
    ($"video",
     [
      ($"common",
        [
          $".mp4"; $".mov"; $".avi"; $".mkv"; $".wmv"; $".flv"; $".webm";
          $".m4v"; $".mpg"; $".mpeg"; $".3gp"
        ]);
      ($"professional",
        [
          $".mxf"; $".r3d"; $".braw"; $".prproj"; $".fcpx"; $".dav"
        ])
     ]);
    ($"archives",
     [
      ($"common",
        [
          $".zip"; $".rar"; $".7z"; $".tar"; $".gz"; $".bz2"; $".xz"; $".tgz";
          $".iso"
        ])
     ]);
    ($"code",
     [
      ($"scripts",
        [
          $".py"; $".js"; $".php"; $".rb"; $".pl"; $".sh"; $".bash"; $".ps1";
          $".bat"; $".cmd"
        ]);
      ($"markup",
        [
          $".html"; $".htm"; $".css"; $".scss"; $".sass"; $".less"
        ]);
      ($"compiled",
        [
          $".c"; $".cpp"; $".h"; $".hpp"; $".cs"; $".java"; $".go"; $".rs";
          $".swift"
        ]);
      ($"data_science",
        [
          $".ipynb"; $".r"; $".rmd"; $".jl"
        ]);
      ($"config",
        [
          $".ini"; $".conf"; $".cfg"; $".properties"
        ])
     ]);
    ($"data",
     [
      ($"databases",
        [
          $".db"; $".sqlite"; $".sqlite3"; $".mdb"; $".accdb"; $".sql"; $".bak"
        ]);
      ($"data_formats",
        [
          $".dat"; $".sav"; $".bin"; $".pkl"; $".parquet"; $".avro"; $".orc"
        ])
     ]);
    ($"executables",
     [
      ($"programs",
        [
          $".exe"; $".app"; $".dmg"; $".pkg"; $".deb"; $".rpm"; $".msi";
          $".apk"; $".ipa"
        ]);
      ($"libraries",
        [
          $".dll"; $".so"; $".dylib"
        ])
     ]);
    ($"design",
     [
      ($"3d_models",
        [
          $".obj"; $".stl"; $".fbx"; $".blend"; $".3ds"; $".c4d"; $".max"
        ]);
      ($"cad",
        [
          $".dwg"; $".dxf"; $".skp"
        ]);
      ($"design",
        [
          $".indd"; $".sketch"; $".fig"; $".xd"
        ])
     ]);
    ($"fonts",
     [
      ($"font_files",
        [
          $".ttf"; $".otf"; $".woff"; $".woff2"; $".eot"
        ])
     ]);
    ($"web",
     [
      ($"web_assets",
        [
          $".asp"; $".aspx"; $".jsp"; $".php"; $".htaccess"; $".htpasswd";
          $".url"; $".webloc"
        ])
     ]);
    ($"system",
     [
      ($"system_files",
        [
          $".sys"; $".tmp"; $".cache"; $".swp"; $".bak"; $".old"; $".log";
          $".lnk"; $".shortcut"; $".plist"
        ])
     ])
  ].


(** The main categories with exactly one subcategory, in table order. *)
Definition single_subcategory_mains : list str :=
  (filter (fun entry : str * list (str * list str) => length entry.2 = 1%nat) file_categories).*1.

(** The flat table: every extension is bound to the (main, sub) pair of its
    last listing, as the later assignment overwrites the earlier one. *)
Definition extension_to_category : gmap str (str * str) :=
  foldl (fun m (entry : str * list (str * list str)) =>
    foldl (fun m (sub : str * list str) =>
      foldl (fun m ext => <[ext := (entry.1, sub.1)]> m) m sub.2) m entry.2)
    ∅ file_categories.

Definition is_hidden (file_path : str) : bool :=
  startswith (code ".") (path.basename file_path).

(** The destination folder of a path that is not hidden. *)
Definition type_folder_name `{U : Unicode} (file_path : str) : str :=
  let ext := lower (path.splitext file_path).2 in
  match extension_to_category !! ext with
  | Some (main_category, subcategory) =>
      if bool_decide (main_category ∈ single_subcategory_mains)
      then main_category
      else path.join main_category subcategory
  | None => $"others"
  end.

Fixpoint process_files_by_type `{U : Unicode} (file_paths : list str) (output_path : str)
  : list Operation :=
  match file_paths with
  | [] => []
  | file_path :: rest =>
      if is_hidden file_path then process_files_by_type rest output_path
      else
        let folder_name := type_folder_name file_path in
        let dir_path := path.join output_path folder_name in
        let new_file_name := path.basename file_path in
        let new_file_path := path.join dir_path new_file_name in
        {| source := file_path; destination := new_file_path;
           link_type := hardlink; folder_name := None; new_file_name := None |}
        :: process_files_by_type rest output_path
  end.

(** ** [compute_operations] *)

(** A record of the input: [data['file_path']], [data['foldername']] and
    [data['filename']]. *)
Record Data := {
  file_path : str;
  foldername : str;
  filename : str
}.

(** The candidate name with counter [n]: [f"{filename}_{n}" + ext]. *)
Definition numbered_name (stem ext : str) (n : nat) : str :=
  stem ++ code "_" :: str_of_nat n ++ ext.

(** The loop [while new_file_path in renamed_files]. [fuel] bounds the
    number of iterations; [compute_operations] gives it one more than the
    size of the set, which is always enough ([handle_duplicates_total]). *)
Fixpoint handle_duplicates (fuel : nat) (renamed_files : gset str) (dir_path stem ext : str)
    (new_file_name new_file_path : str) (counter : nat) : option (str * str) :=
  if bool_decide (new_file_path ∈ renamed_files) then
    match fuel with
    | O => None
    | S fuel' =>
        let new_file_name := numbered_name stem ext counter in
        let new_file_path := path.join dir_path new_file_name in
        handle_duplicates fuel' renamed_files dir_path stem ext
          new_file_name new_file_path (counter + 1)%nat
    end
  else Some (new_file_name, new_file_path).

(** The result holds the operations and the two sets as the call leaves
    them: [(operations, renamed_files, processed_files)]. *)
Fixpoint compute_operations (data_list : list Data) (new_path : str)
    (renamed_files processed_files : gset str)
  : option (list Operation * gset str * gset str) :=
  match data_list with
  | [] => Some ([], renamed_files, processed_files)
  | data :: rest =>
      if bool_decide (file_path data ∈ processed_files)
      then compute_operations rest new_path renamed_files processed_files
      else
        let processed_files := {[file_path data]} ∪ processed_files in
        let folder_name := foldername data in
        let ext := (path.splitext (file_path data)).2 in
        let new_file_name := filename data ++ ext in
        let dir_path := path.join new_path folder_name in
        let new_file_path := path.join dir_path new_file_name in
        match handle_duplicates (S (size renamed_files)) renamed_files dir_path
                (filename data) ext new_file_name new_file_path 1 with
        | None => None
        | Some (new_file_name, new_file_path) =>
            let operation :=
              {| source := file_path data; destination := new_file_path;
                 link_type := hardlink; folder_name := Some folder_name;
                 new_file_name := Some new_file_name |} in
            match compute_operations rest new_path
                    ({[new_file_path]} ∪ renamed_files) processed_files with
            | None => None
            | Some (operations, renamed_files', processed_files') =>
                Some (operation :: operations, renamed_files', processed_files')
            end
        end
  end.

(** ** [execute_operations] *)

(** What the call can change: the file system, the text written to standard
    output, the text written to each log file, and the progress counter.
    The log file itself is in the file system: it is opened, and created,
    by [append_text]. *)
Record World `{os : OS} := {
  w_fs : FS;
  w_stdout : str;
  w_logs : gmap str str;
  w_progress : nat
}.

Definition dry_run_message (op : Operation) : str :=
  $"Dry run: would create " ++ link_type op ++ $" from '" ++ source op
    ++ $"' to '" ++ destination op ++ $"'".

Definition created_message (op : Operation) : str :=
  $"Created " ++ link_type op ++ $" from '" ++ source op
    ++ $"' to '" ++ destination op ++ $"'".

Definition error_message (op : Operation) (e : exn) : str :=
  $"Error creating " ++ link_type op ++ $" from '" ++ source op
    ++ $"' to '" ++ destination op ++ $"': " ++ e.

(** The part of the loop body that computes [message]. The directory is
    created outside the [try]: an exception of [os.makedirs] leaves the
    body, an exception of the link becomes the message. *)
Definition perform `{os : OS} (dry_run : bool) (op : Operation) (fs : FS) : FS * result str :=
  let dir_path := path.dirname (destination op) in
  if dry_run then (fs, Ok (dry_run_message op))
  else
    match os_makedirs dir_path fs with
    | (fs1, Some e) => (fs1, Raise e)
    | (fs1, None) =>
        let linked :=
          if bool_decide (link_type op = hardlink)
          then os_link (source op) (destination op) fs1
          else os_symlink (source op) (destination op) fs1 in
        match linked with
        | (fs2, None) => (fs2, Ok (created_message op))
        | (fs2, Some e) => (fs2, Ok (error_message op e))
        end
    end.

(** [if log_file:] holds for a string that is not empty. *)
Definition truthy (log_file : option str) : option str :=
  match log_file with
  | Some f => if bool_decide (f = []) then None else Some f
  | None => None
  end.

(** The silent-mode handling at the end of the body. The log file is
    opened for appending outside any [try]: its exception leaves the
    body. *)
Definition emit `{os : OS} (silent : bool) (log_file : option str) (message : str)
    (w : World) : World * option exn :=
  if silent then
    match truthy log_file with
    | Some f =>
        match append_text f (message ++ newline) (w_fs w) with
        | (fs', None) =>
            ({| w_fs := fs'; w_stdout := w_stdout w;
                w_logs := <[f := default [] (w_logs w !! f) ++ message ++ newline]> (w_logs w);
                w_progress := w_progress w |}, None)
        | (fs', Some e) =>
            ({| w_fs := fs'; w_stdout := w_stdout w; w_logs := w_logs w;
                w_progress := w_progress w |}, Some e)
        end
    | None => (w, None)
    end
  else
    ({| w_fs := w_fs w; w_stdout := w_stdout w ++ message ++ newline;
        w_logs := w_logs w; w_progress := w_progress w |}, None).

(** The outcome of a call: the world it leaves, the successive values of
    [message] it computed, and whether it returned or raised. *)
Record Run `{os : OS} := {
  run_world : World;
  run_messages : list str;
  run_status : result unit
}.

Fixpoint execute_operations `{os : OS} (operations : list Operation)
    (dry_run silent : bool) (log_file : option str) (w : World) : Run :=
  match operations with
  | [] => {| run_world := w; run_messages := []; run_status := Ok () |}
  | operation :: rest =>
      match perform dry_run operation (w_fs w) with
      | (fs', Raise e) =>
          {| run_world := {| w_fs := fs'; w_stdout := w_stdout w;
                             w_logs := w_logs w; w_progress := w_progress w |};
             run_messages := []; run_status := Raise e |}
      | (fs', Ok message) =>
          let w1 := {| w_fs := fs'; w_stdout := w_stdout w; w_logs := w_logs w;
                       w_progress := S (w_progress w) |} in
          match emit silent log_file message w1 with
          | (w2, Some e) =>
              {| run_world := w2; run_messages := [message]; run_status := Raise e |}
          | (w2, None) =>
              let r := execute_operations rest dry_run silent log_file w2 in
              {| run_world := run_world r; run_messages := message :: run_messages r;
                 run_status := run_status r |}
          end
      end
  end.

(** ** A small file system

    An instance of [OS] on which the program can be run: a map from
    absolute paths to nodes, each with the calendar year and month of its
    last modification. It has what the executor and the date planner can
    observe: missing sources, existing destinations, a regular file where a
    directory is wanted, a log file that cannot be opened, and a
    modification time outside the range of dates. The text of a file is
    not part of it. *)

Module posix_model.

Inductive kind := Directory | Regular | Link (target : str).

Record node := {
  node_kind : kind;
  node_year : nat;
  node_month : nat
}.

Abbreviation fs := (gmap str node).

Definition month_names : list str :=
  [ $"January"; $"February"; $"March"; $"April"; $"May"; $"June"; $"July";
    $"August"; $"September"; $"October"; $"November"; $"December" ].

Definition quoted (p : str) : str := $"'" ++ p ++ $"'".

Definition getmtime (p : str) (m : fs) : result (nat * nat) :=
  match m !! p with
  | Some n => Ok (node_year n, node_month n)
  | None => Raise ($"[Errno 2] No such file or directory: " ++ quoted p)
  end.

(** A date has a year between 1 and 9999. *)
Definition from_year_month (t : nat * nat) : result (nat * nat) :=
  if (Nat.leb 1 t.1 && (Z.of_nat t.1 <=? 9999))%bool then Ok t
  else Raise ($"year " ++ str_of_nat t.1 ++ $" is out of range").

(** The prefixes of [p] that end before a separator, the root apart:
    the directories above [p], outermost first. [seen] is the part of the
    path already read. *)
Fixpoint parents (seen p : str) : list str :=
  match p with
  | [] => []
  | c :: t =>
      (if (chr_eqb c path.sep && negb (bool_decide (seen = []))
           && negb (endswith path.sep seen))%bool
       then [seen] else [])
      ++ parents (seen ++ [c]) t
  end.

Definition new_directory : node :=
  {| node_kind := Directory; node_year := 1970; node_month := 1 |}.

(** [os.mkdir] of each directory of [chain] in turn, an existing
    directory being accepted ([exist_ok=True]). *)
Fixpoint mkdir_chain (name : str) (chain : list str) (m : fs) : fs * option exn :=
  match chain with
  | [] => (m, None)
  | d :: rest =>
      match m !! d with
      | None => mkdir_chain name rest (<[d := new_directory]> m)
      | Some n =>
          match node_kind n with
          | Directory => mkdir_chain name rest m
          | _ =>
              (m, Some (if bool_decide (d = name)
                        then $"[Errno 17] File exists: " ++ quoted name
                        else $"[Errno 20] Not a directory: " ++ quoted name))
          end
      end
  end.

Definition makedirs (name : str) (m : fs) : fs * option exn :=
  if bool_decide (name = [])
  then (m, Some ($"[Errno 2] No such file or directory: " ++ quoted name))
  else mkdir_chain name (parents [] name ++ [name]) m.

Definition is_directory (p : str) (m : fs) : bool :=
  match m !! p with
  | Some n => match node_kind n with Directory => true | _ => false end
  | None => bool_decide (p = [path.sep])
  end.

Definition link_error (errno : str) (src dst : str) : exn :=
  errno ++ quoted src ++ $" -> " ++ quoted dst.

Definition link (src dst : str) (m : fs) : fs * option exn :=
  match m !! src with
  | None => (m, Some (link_error $"[Errno 2] No such file or directory: " src dst))
  | Some n =>
      match node_kind n with
      | Directory => (m, Some (link_error $"[Errno 1] Operation not permitted: " src dst))
      | _ =>
          if bool_decide (is_Some (m !! dst))
          then (m, Some (link_error $"[Errno 17] File exists: " src dst))
          else if is_directory (path.dirname dst) m
          then (<[dst := n]> m, None)
          else (m, Some (link_error $"[Errno 2] No such file or directory: " src dst))
      end
  end.

Definition symlink (src dst : str) (m : fs) : fs * option exn :=
  if bool_decide (is_Some (m !! dst))
  then (m, Some (link_error $"[Errno 17] File exists: " src dst))
  else if is_directory (path.dirname dst) m
  then (<[dst := {| node_kind := Link src; node_year := 1970; node_month := 1 |}]> m, None)
  else (m, Some (link_error $"[Errno 2] No such file or directory: " src dst)).

Definition new_file : node :=
  {| node_kind := Regular; node_year := 1970; node_month := 1 |}.

(** [open(name, 'a')] at the path [p] that [name] resolves to: a regular
    file is opened, a missing file is created when its directory exists, a
    directory cannot be opened, and a symbolic link is followed, [fuel]
    times at most. *)
Fixpoint open_append (fuel : nat) (name p : str) (m : fs) : fs * option exn :=
  if is_directory p m
  then (m, Some ($"[Errno 21] Is a directory: " ++ quoted name))
  else
    match m !! p with
    | None =>
        if is_directory (path.dirname p) m
        then (<[p := new_file]> m, None)
        else (m, Some ($"[Errno 2] No such file or directory: " ++ quoted name))
    | Some n =>
        match node_kind n with
        | Link target =>
            match fuel with
            | O => (m, Some ($"[Errno 40] Too many levels of symbolic links: " ++ quoted name))
            | S fuel' => open_append fuel' name (path.join (path.dirname p) target) m
            end
        | _ => (m, None)
        end
    end.

(** The write itself does not fail here. *)
Definition append (name text : str) (m : fs) : fs * option exn :=
  open_append 40 name name m.

Definition os : OS := {|
  FS := fs;
  mtime := nat * nat;
  datetime := nat * nat;
  os_getmtime := getmtime;
  fromtimestamp := from_year_month;
  strftime_Y := fun d => str_of_nat d.1;
  strftime_B := fun d => default [] (month_names !! Nat.pred d.2);
  os_makedirs := makedirs;
  os_link := link;
  os_symlink := symlink;
  append_text := append
|}.

Definition regular (year month : nat) : node :=
  {| node_kind := Regular; node_year := year; node_month := month |}.

Definition world (m : fs) : World (os := os) :=
  {| w_fs := m : FS (OS := os); w_stdout := []; w_logs := ∅; w_progress := 0 |}.

End posix_model.

(** ** A fragment of the character database

    An instance of [Unicode] on which the program can be run: the
    characters of Latin-1, the dotted and dotless I (U+0130, U+0131), the
    long s (U+017F), the Kelvin and Angstrom signs (U+212A, U+212B), and
    the white space of the whole database. A character outside the
    fragment is taken to be of no class and to have no case. *)

Module unicode_model.

Definition between (lo hi c : char) : bool := ((lo <=? c)%N && (c <=? hi)%N)%bool.

Definition alnum (c : char) : bool :=
  existsb (λ r : char * char, between r.1 r.2 c)
    [ (0xaa, 0xaa); (0xb2, 0xb3); (0xb5, 0xb5); (0xb9, 0xba); (0xbc, 0xbe);
      (0xc0, 0xd6); (0xd8, 0xf6); (0xf8, 0xff); (0x130, 0x131); (0x17f, 0x17f);
      (0x212a, 0x212b) ]%N.

Definition space (c : char) : bool :=
  existsb (λ r : char * char, between r.1 r.2 c)
    [ (0x85, 0x85); (0xa0, 0xa0); (0x1680, 0x1680); (0x2000, 0x200a);
      (0x2028, 0x2029); (0x202f, 0x202f); (0x205f, 0x205f); (0x3000, 0x3000) ]%N.

Definition punct (c : char) : bool :=
  existsb (λ r : char * char, between r.1 r.2 c)
    [ (0xa1, 0xa9); (0xab, 0xac); (0xae, 0xb1); (0xb4, 0xb4); (0xb6, 0xb8);
      (0xbb, 0xbb); (0xbf, 0xbf); (0xd7, 0xd7); (0xf7, 0xf7) ]%N.

(** The lower-case mapping of one character. *)
Definition lower_full (c : char) : str :=
  if (between 0xc0 0xde c && negb (c =? 0xd7))%N%bool then [(c + 32)%N]
  else if (c =? 0x130)%N then [0x69; 0x307]%N
  else if (c =? 0x212a)%N then [0x6b]%N
  else if (c =? 0x212b)%N then [0xe5]%N
  else [lower_chr c].

Definition lower_all (s : str) : str := mjoin (lower_full <$> s).

Definition ignorecase (a c : char) : bool :=
  (((a =? 0x69) && ((c =? 0x130) || (c =? 0x131)))
   || ((a =? 0x6b) && (c =? 0x212a))
   || ((a =? 0x73) && (c =? 0x17f)))%N%bool.

Program Definition latin : Unicode := {|
  u_alnum := alnum;
  u_space := space;
  u_punct := punct;
  u_lower := lower_all;
  u_ignorecase := ignorecase
|}.
Next Obligation.
  intros a c _. unfold ignorecase.
  destruct (N.eqb_spec c 0x130) as [->|]; [done|].
  destruct (N.eqb_spec c 0x131) as [->|]; [done|].
  destruct (N.eqb_spec c 0x212a) as [->|]; [done|].
  destruct (N.eqb_spec c 0x17f) as [->|]; [done|].
  by rewrite !andb_false_r.
Qed.
Next Obligation.
  intros s Hs. unfold lower_all.
  induction Hs as [|c t Hc Ht IH]; [constructor|].
  rewrite fmap_cons. cbn [mjoin list_join]. apply Forall_app. split; [|exact IH].
  clear IH Ht t. revert Hc. destruct (decide (c < 0x2200)%N) as [Hc|Hc].
  - assert (Hall : Forall (λ c, char_class is_word_ascii alnum c = true →
                       Forall (λ d, d = code "_"
                                    ∨ char_class is_punctuation_ascii punct d = false)
                         (lower_full c))
                     (N.of_nat <$> seq 0 (N.to_nat 0x2200))) by compute_done.
    rewrite Forall_forall in Hall. apply Hall.
    apply list_elem_of_fmap. exists (N.to_nat c). split; [lia|]. apply elem_of_seq. lia.
  - unfold char_class, is_ascii. rewrite (proj2 (N.ltb_ge c 128)) by lia.
    unfold alnum, between. cbn [existsb fst snd].
    repeat (rewrite (proj2 (N.leb_gt c _)) by lia). by rewrite !andb_false_r.
Qed.

End unicode_model.

(** ** Notions used to state the properties *)

(** The names and destinations the metadata planner tries for a record, in
    order: the plain name, then the names numbered 1, 2, ... *)
Definition candidate_name (stem ext : str) (n : nat) : str :=
  match n with
  | O => stem ++ ext
  | S _ => numbered_name stem ext n
  end.

Definition candidate (dir_path stem ext : str) (n : nat) : str :=
  path.join dir_path (candidate_name stem ext n).

(** Two records with distinct sources that ask for the same folder and the
    same name. *)
Definition same_stem_pair (d1 d2 : Data) : Prop :=
  file_path d1 ≠ file_path d2 ∧ foldername d1 = foldername d2 ∧ filename d1 = filename d2.

(** A record that asks for [folder], [stem] and has the extension [ext]. *)
Definition same_target (folder stem ext : str) (d : Data) : Prop :=
  foldername d = folder ∧ filename d = stem ∧ (path.splitext (file_path d)).2 = ext.

(** The destination the date planner gives a source, from the source alone. *)
Definition date_destination `{os : OS} (fs : FS) (output_path file_path : str) : option str :=
  match os_getmtime file_path fs with
  | Ok mod_time =>
      match fromtimestamp mod_time with
      | Ok mod_datetime =>
          Some (path.join (path.join (path.join output_path (strftime_Y mod_datetime))
                             (strftime_B mod_datetime)) (path.basename file_path))
      | Raise _ => None
      end
  | Raise _ => None
  end.

(** A source whose modification time can be read and is a date. *)
Definition dated `{os : OS} (fs : FS) (file_path : str) : Prop :=
  ∃ mod_time mod_datetime,
    os_getmtime file_path fs = Ok mod_time ∧ fromtimestamp mod_time = Ok mod_datetime.

(** The destination the type planner gives a source, from the source alone. *)
Definition type_destination `{U : Unicode} (output_path file_path : str) : str :=
  path.join (path.join output_path (type_folder_name file_path)) (path.basename file_path).

(** The category table read as a list of listings (extension, (main, sub)),
    in the order of the table. *)
Definition flat_listing : list (str * (str * str)) :=
  entry ← file_categories; sub ← entry.2; ext ← sub.2; [(ext, (entry.1, sub.1))].

(** The (main, sub) pairs under which an extension is listed. *)
Definition listings (ext : str) : list (str * str) :=
  (filter (λ e : str * (str * str), e.1 = ext) flat_listing).*2.

Definition has_one_subcategory (main_category : str) : Prop :=
  Exists (λ entry : str * list (str * list str),
            entry.1 = main_category ∧ length entry.2 = 1%nat) file_categories.

(** The folder a listing stands for: the bare main category when it has
    exactly one subcategory, main/sub otherwise. *)
Definition listing_folder (listing : str * str) : str :=
  if bool_decide (has_one_subcategory listing.1) then listing.1
  else listing.1 ++ $"/" ++ listing.2.

(** The folder of a path, read off the category table: the last listing of
    its lower-cased extension decides. *)
Definition expected_folder `{U : Unicode} (file_path : str) : str :=
  match last (listings (lower (path.splitext file_path).2)) with
  | Some listing => listing_folder listing
  | None => $"others"
  end.


Definition tokens (s : str) : list str :=
  filter (fun w : str => w ≠ []) (split (code "_") s).

(** A character that is neither a path separator nor a punctuation mark,
    the underscore that joins the tokens apart. *)
Definition plain_chr `{U : Unicode} (c : char) : Prop :=
  c = code "_" ∨ (is_punctuation c = false ∧ c ≠ path.sep).

(** The maximal runs of word characters of a text, in order: its words. *)
Fixpoint word_runs `{U : Unicode} (s : str) : list str :=
  match s with
  | [] => []
  | c :: t =>
      if sanitize.is_word c then
        match word_runs t with
        | r :: rs =>
            if sanitize.is_word_opt (head t) then (c :: r) :: rs else [c] :: r :: rs
        | [] => [[c]]
        end
      else word_runs t
  end.

(** An input made of stop words: each of its words is a stop word, in any
    letter case. The empty input is the case of no word. *)
Definition is_stop_word (w : str) : Prop := lower_ascii w ∈ sanitize.stop_words.

Definition made_of_stop_words `{U : Unicode} (name : str) : Prop :=
  Forall is_stop_word (word_runs name).

(** The character before the position that follows the text [u]. *)
Definition last_read (prev : option char) (u : str) : option char :=
  foldl (λ _ c, Some c) prev u.

(** ** Sample inputs *)

Module scenario.

Definition plan (src dst : str) : Operation :=
  {| source := src; destination := dst; link_type := hardlink;
     folder_name := None; new_file_name := None |}.

Definition report (src : str) : Data :=
  {| file_path := src; foldername := $"docs"; filename := $"report" |}.

(** What an earlier planning call allocated for two reports. *)
Definition earlier_allocations : gset str :=
  {[ $"/out/docs/report.txt"; $"/out/docs/report_1.txt" ]}.

Definition earlier_sources : gset str := {[ $"/in/a.txt"; $"/in/b.txt" ]}.

Definition two_files : posix_model.fs :=
  list_to_map [ ($"/in/a.txt", posix_model.regular 2024 3);
                ($"/in/b.txt", posix_model.regular 2023 12) ].

(** Two sources, and a regular file where the first destination wants a
    directory. *)
Definition blocked : posix_model.fs :=
  list_to_map [ ($"/in/a.txt", posix_model.regular 2024 3);
                ($"/in/b.txt", posix_model.regular 2023 12);
                ($"/out", posix_model.new_directory);
                ($"/out/blocker", posix_model.regular 2020 1) ].

Definition blocked_batch : list Operation :=
  [ plan $"/in/a.txt" $"/out/blocker/a.txt"; plan $"/in/b.txt" $"/out/ok/b.txt" ].

(** The same batch with a missing source in place of the blocked
    directory. *)
Definition missing_batch : list Operation :=
  [ plan $"/in/missing.txt" $"/out/ok/missing.txt"; plan $"/in/b.txt" $"/out/ok/b.txt" ].

(** A source whose modification time is no date. *)
Definition undated : posix_model.fs :=
  list_to_map [ ($"/in/a.txt", posix_model.regular 2024 3);
                ($"/in/old.txt", posix_model.regular 0 1) ].

End scenario.

(** ** [WorkerThread.run] (main.py) *)

(** What the worker emits: [status_signal], [progress_signal] and
    [finished_signal]. *)
Inductive signal :=
  | status_signal (message : str)
  | progress_signal (value : Z)
  | finished_signal (operations : list Operation).

(** The tasks whose code is modelled, [task_type] with its arguments. The
    tasks ["collect_files"] and ["analytics"] are left out: they rest on
    [file_utils], which is not part of these sources, and on floating-point
    formatting. *)
Inductive task :=
  | process_by_date (file_paths : list str) (output_path : str)
  | process_by_type (file_paths : list str) (output_path : str)
  | execute_task (operations : list Operation).

(** The loop of the ["execute_operations"] task: one call of
    [execute_operations([op], dry_run=False, silent=True)] per operation,
    each followed by a progress signal. [percent (i + 1) total_ops] stands
    for [int((i + 1) / total_ops * 100)], a floating-point computation. An
    exception ends the loop. *)
Fixpoint execute_each `{os : OS} (percent : nat → nat → Z) (operations : list Operation)
    (i total_ops : nat) (w : World) : World * list signal * option exn :=
  match operations with
  | [] => (w, [], None)
  | op :: rest =>
      let r := execute_operations [op] false true None w in
      match run_status r with
      | Raise e => (run_world r, [], Some e)
      | Ok _ =>
          let '(w', signals, raised) :=
            execute_each percent rest (S i) total_ops (run_world r) in
          (w', progress_signal (percent (S i) total_ops) :: signals, raised)
      end
  end.

(** [run]: the body is inside [try ... except Exception as e], which emits
    the error as a status and an empty result. *)
Definition run `{U : Unicode} `{os : OS} (percent : nat → nat → Z) (t : task) (w : World)
  : World * list signal :=
  let failed (e : exn) :=
    [ status_signal ($"Error: " ++ e); finished_signal [] ] in
  match t with
  | process_by_date file_paths output_path =>
      (w, status_signal $"Processing files by date..." ::
          match process_files_by_date (w_fs w) file_paths output_path with
          | Ok operations =>
              [ status_signal $"Date-based operations prepared.";
                finished_signal operations ]
          | Raise e => failed e
          end)
  | process_by_type file_paths output_path =>
      (w, [ status_signal $"Processing files by type...";
            status_signal $"Type-based operations prepared.";
            finished_signal (process_files_by_type file_paths output_path) ])
  | execute_task operations =>
      let '(w', signals, raised) :=
        execute_each percent operations 0 (length operations) w in
      (w', status_signal $"Executing file operations..." :: signals ++
           match raised with
           | None =>
               [ status_signal $"File operations completed."; finished_signal [] ]
           | Some e => failed e
           end)
  end.

(** ** More notions used to state the properties *)

(** The paths of a list that are not in [seen], each at its first
    occurrence. *)
Fixpoint first_occurrences (seen : gset str) (paths : list str) : list str :=
  match paths with
  | [] => []
  | p :: rest =>
      if bool_decide (p ∈ seen) then first_occurrences seen rest
      else p :: first_occurrences ({[p]} ∪ seen) rest
  end.

(** One of the three messages the executor computes for an operation. *)
Definition is_message_of (dry_run : bool) (op : Operation) (message : str) : Prop :=
  if dry_run then message = dry_run_message op
  else message = created_message op ∨ ∃ e, message = error_message op e.


(** The log file the messages of a call are appended to, if any. *)
Definition log_sink (silent : bool) (log_file : option str) : option str :=
  if silent then truthy log_file else None.



(** A prefix that is empty or ends with a separator: what [join] puts
    before a relative name. *)
Definition dir_prefix (pre : str) : Prop := pre = [] ∨ ∃ q, pre = q ++ [path.sep].

(** A folder name that [join] puts under a directory: not empty, without a
    separator at either end. *)
Definition relative_folder (f : str) : Prop :=
  startswith path.sep f = false ∧ endswith path.sep f = false ∧ f ≠ [].

(** The operation the metadata planner emits for the record [d]: the fields
    copied from the record, and a name and destination that are one of the
    candidates of the record. *)
Definition planned_from (new_path : str) (d : Data) (op : Operation) : Prop :=
  source op = file_path d
  ∧ link_type op = hardlink
  ∧ folder_name op = Some (foldername d)
  ∧ ∃ k, new_file_name op
         = Some (candidate_name (filename d) (path.splitext (file_path d)).2 k)
       ∧ destination op
         = candidate (path.join new_path (foldername d)) (filename d)
             (path.splitext (file_path d)).2 k.

(** The operation is planned from the record [d] with the first of its
    candidates that is not in [taken]: the plain name when it is free, and
    else the name with the first numeric suffix that is. *)
Definition first_free (new_path : str) (taken : gset str) (d : Data) (op : Operation) : Prop :=
  let cand := candidate (path.join new_path (foldername d)) (filename d)
                (path.splitext (file_path d)).2 in
  source op = file_path d
  ∧ ∃ k, new_file_name op
         = Some (candidate_name (filename d) (path.splitext (file_path d)).2 k)
       ∧ destination op = cand k
       ∧ (cand k ∉ taken)
       ∧ ∀ j, (j < k)%nat → cand j ∈ taken.

(** The outcome of running [ops2] after the outcome [r1] of an earlier
    part of the batch. *)
Definition then_run `{os : OS} (r1 : Run) (rest : World → Run) : Run :=
  match run_status r1 with
  | Ok _ =>
      let r2 := rest (run_world r1) in
      {| run_world := run_world r2;
         run_messages := run_messages r1 ++ run_messages r2;
         run_status := run_status r2 |}
  | Raise _ => r1
  end.

(** The signals of the execute task after the first one, read off the
    outcome of the batch. *)
Definition execute_signals `{os : OS} (percent : nat → nat → Z) (total_ops : nat)
    (r : Run) : list signal :=
  ((λ i, progress_signal (percent i total_ops)) <$> seq 1 (length (run_messages r)))
  ++ match run_status r with
     | Ok _ => [ status_signal $"File operations completed."; finished_signal [] ]
     | Raise e => [ status_signal ($"Error: " ++ e); finished_signal [] ]
     end.

(** Two underscores in a row somewhere in the text. *)
Fixpoint adjacent_underscores (s : str) : bool :=
  match s with
  | [] => false
  | c :: t => (chr_eqb c (code "_") && startswith (code "_") t) || adjacent_underscores t
  end.

(** A token of a clean name: lowercase letters and digits, at least one. *)
Definition token_chr (c : char) : bool := (is_lower c || is_digit c)%bool.

Definition clean_token (w : str) : Prop :=
  w ≠ [] ∧ Forall (λ c, token_chr c = true) w.

(** * Properties *)

Set Warnings "-clear-no-such-hyp".
Import sanitize.

(** ** Strings *)

Lemma chr_eqb_true a b : chr_eqb a b = true ↔ a = b.
Proof. apply N.eqb_eq. Qed.

Lemma chr_eqb_false a b : chr_eqb a b = false ↔ a ≠ b.
Proof. apply N.eqb_neq. Qed.

Lemma code_inj a b : code a = code b → a = b.
Proof.
  unfold code. intros E.
  by rewrite <- (ascii_N_embedding a), <- (ascii_N_embedding b), E.
Qed.

Lemma of_string_inj s t : of_string s = of_string t → s = t.
Proof.
  unfold of_string. intros E.
  rewrite <- (string_of_list_ascii_of_string s), <- (string_of_list_ascii_of_string t).
  f_equal. revert E. generalize (list_ascii_of_string s) (list_ascii_of_string t).
  induction l as [|a l IH]; intros [|b l']; try done.
  rewrite !fmap_cons. intros [= Ha%code_inj Hl%IH]. by subst.
Qed.

(** A property of the ASCII characters is checked on each of them. *)
Lemma ascii_range (P : char → Prop) :
  Forall P (N.of_nat <$> seq 0 128) → ∀ c, is_ascii c = true → P c.
Proof.
  intros H c Hc. apply N.ltb_lt in Hc. rewrite Forall_forall in H. apply H.
  apply list_elem_of_fmap. exists (N.to_nat c). split; [lia|]. apply elem_of_seq. lia.
Qed.

Ltac check_ascii :=
  match goal with
  | |- ∀ c, is_ascii c = true → @?P c => apply (ascii_range P); compute_done
  end.

(** Outside ASCII no character is of an ASCII class. *)
Lemma non_ascii c :
  is_ascii c = false →
  is_lower c = false ∧ is_upper c = false ∧ is_digit c = false
  ∧ lower_chr c = c ∧ (∀ a, is_ascii a = true → c ≠ a).
Proof.
  unfold is_ascii, is_lower, is_upper, is_digit, lower_chr, is_upper.
  intros H%N.ltb_ge.
  repeat split.
  - apply andb_false_iff. right. apply N.leb_gt. lia.
  - apply andb_false_iff. right. apply N.leb_gt. lia.
  - apply andb_false_iff. right. apply N.leb_gt. lia.
  - rewrite (proj2 (andb_false_iff _ _)); [done|]. right. apply N.leb_gt. lia.
  - intros a Ha%N.ltb_lt. lia.
Qed.

Lemma str_of_nat_inj n m : str_of_nat n = str_of_nat m → n = m.
Proof.
  unfold str_of_nat. intros E. by apply (inj pretty), of_string_inj.
Qed.

Lemma numbered_name_inj stem ext n m :
  numbered_name stem ext n = numbered_name stem ext m → n = m.
Proof.
  unfold numbered_name. intros E.
  apply app_inv_head in E. injection E as E.
  apply app_inv_tail in E. by apply str_of_nat_inj.
Qed.

Lemma numbered_name_length stem ext n :
  length (numbered_name stem ext n) = (length stem + 1 + length (str_of_nat n) + length ext)%nat.
Proof. unfold numbered_name. rewrite length_app. simpl. rewrite length_app. lia. Qed.

Lemma numbered_name_ne_plain stem ext n : numbered_name stem ext n ≠ stem ++ ext.
Proof.
  intros E. apply (f_equal length) in E.
  rewrite numbered_name_length, length_app in E. lia.
Qed.

(** ** Paths *)

(** Joining onto a fixed directory prefixes the name by a fixed string, as
    long as the names agree on starting with a separator. *)
Lemma join_prefix a b :
  path.join a b = (if startswith path.sep b then [] else
                   if (bool_decide (a = []) || endswith path.sep a)%bool then a
                   else a ++ [path.sep]) ++ b.
Proof.
  unfold path.join. destruct (startswith path.sep b); [done|].
  destruct (_ || _)%bool; [done|]. by rewrite <- app_assoc.
Qed.

Lemma join_inj a b1 b2 :
  startswith path.sep b1 = startswith path.sep b2 →
  path.join a b1 = path.join a b2 → b1 = b2.
Proof.
  intros Hs. rewrite !join_prefix, Hs. apply app_inv_head.
Qed.

Lemma startswith_app c s t : s ≠ [] → startswith c (s ++ t) = startswith c s.
Proof. by destruct s. Qed.

Lemma startswith_numbered stem ext n :
  startswith path.sep (numbered_name stem ext n) = startswith path.sep stem.
Proof. unfold numbered_name. destruct stem; [reflexivity|done]. Qed.

Lemma rfind_lookup c s i : rfind c s = i → 0 ≤ i → s !! Z.to_nat i = Some c.
Proof.
  revert i. induction s as [|x t IH]; intros i; simpl.
  - lia.
  - destruct (0 <=? rfind c t) eqn:E.
    + intros <- _. apply Z.leb_le in E.
      replace (Z.to_nat (rfind c t + 1)) with (S (Z.to_nat (rfind c t))) by lia.
      simpl. by apply IH.
    + destruct (chr_eqb x c) eqn:Ex; [|lia].
      intros <- _. apply chr_eqb_true in Ex. by subst.
Qed.

Lemma rfind_bounds c s : -1 ≤ rfind c s < Z.of_nat (length s).
Proof.
  induction s as [|x t IH]; simpl; [lia|].
  destruct (0 <=? rfind c t) eqn:E; [apply Z.leb_le in E; lia|].
  destruct (chr_eqb x c); lia.
Qed.

Lemma clamp_index_nonneg i len : 0 ≤ i → clamp_index i len = Nat.min len (Z.to_nat i).
Proof.
  intros Hi. unfold clamp_index.
  destruct (i <? 0) eqn:E; [apply Z.ltb_lt in E; lia|]. lia.
Qed.

(** The extension given by [splitext] is empty or starts with a dot. *)
Lemma splitext_ext p : (path.splitext p).2 = [] ∨ head (path.splitext p).2 = Some path.extsep.
Proof.
  unfold path.splitext.
  destruct (rfind path.sep p <? rfind path.extsep p) eqn:E; [|by left].
  destruct (existsb _ _); [|by left]. right. simpl.
  apply Z.ltb_lt in E.
  pose proof (rfind_bounds path.sep p). pose proof (rfind_bounds path.extsep p).
  unfold slice_from. rewrite clamp_index_nonneg by lia.
  rewrite Nat.min_r by lia.
  rewrite head_lookup, lookup_drop, Nat.add_0_r.
  apply rfind_lookup; [done|lia].
Qed.

Lemma splitext_ext_startswith p : startswith path.sep (path.splitext p).2 = false.
Proof.
  destruct (splitext_ext p) as [-> | H]; [done|].
  destruct (path.splitext p).2; [done|]. simpl in *. by injection H as ->.
Qed.

Lemma startswith_plain stem ext :
  startswith path.sep ext = false →
  startswith path.sep (stem ++ ext) = startswith path.sep stem.
Proof. intros H. by destruct stem. Qed.

(** ** Strings: stripping, splitting, joining *)

Section chars.
Variable P : char → Prop.

Lemma Forall_lstrip Q s : Forall P s → Forall P (lstrip Q s).
Proof.
  induction 1 as [|c t Hc Ht IH]; simpl; [constructor|].
  destruct (Q c); [done|by constructor].
Qed.

Lemma Forall_rstrip Q s : Forall P s → Forall P (rstrip Q s).
Proof.
  intros H. unfold rstrip. by apply Forall_rev, Forall_lstrip, Forall_rev.
Qed.

Lemma Forall_strip Q s : Forall P s → Forall P (strip Q s).
Proof. intros H. by apply Forall_rstrip, Forall_lstrip. Qed.

Lemma Forall_split c s : Forall P s → Forall (Forall P) (split c s).
Proof.
  induction 1 as [|x t Hx Ht IH]; simpl; [by repeat constructor|].
  destruct (chr_eqb x c); [by repeat constructor|].
  destruct IH as [|h r Hh Hr]; by repeat constructor.
Qed.

Lemma Forall_str_join c ws : P c → Forall (Forall P) ws → Forall P (str_join c ws).
Proof.
  intros Hc. induction 1 as [|w r Hw Hr IH]; simpl; [constructor|].
  destruct r; [done|]. apply Forall_app. split; [done|]. by constructor.
Qed.

Lemma Forall_slice_to (s : str) i : Forall P s → Forall P (slice_to s i).
Proof. apply Forall_take. Qed.
End chars.

Lemma split_no_sep c s : Forall (λ w, c ∉ w) (split c s).
Proof.
  induction s as [|x t IH]; simpl.
  - repeat constructor. apply not_elem_of_nil.
  - destruct (chr_eqb x c) eqn:E.
    + constructor; [apply not_elem_of_nil|done].
    + apply chr_eqb_false in E. destruct IH as [|h r Hh Hr].
      * repeat constructor. set_solver.
      * constructor; [|done]. set_solver.
Qed.

Lemma split_without c w : c ∉ w → split c w = [w].
Proof.
  induction w as [|x t IH]; simpl; [done|]. intros Hc.
  rewrite (proj2 (chr_eqb_false x c)) by set_solver.
  rewrite IH by set_solver. done.
Qed.

Lemma split_app_sep c w s : c ∉ w → split c (w ++ c :: s) = w :: split c s.
Proof.
  induction w as [|x t IH]; simpl; intros Hc.
  - by rewrite (proj2 (chr_eqb_true c c)).
  - rewrite (proj2 (chr_eqb_false x c)) by set_solver.
    rewrite IH by set_solver. done.
Qed.

Lemma slice_to_length {A} (l : list A) (i : Z) :
  (0 ≤ i)%Z → (Z.of_nat (length (slice_to l i)) ≤ i)%Z.
Proof.
  intros Hi. unfold slice_to. rewrite length_take, clamp_index_nonneg by done. lia.
Qed.

Lemma slice_to_nonempty {A} (l : list A) (i : Z) :
  (1 ≤ i)%Z → l ≠ [] → slice_to l i ≠ [].
Proof.
  intros Hi Hl E. apply (f_equal length) in E. unfold slice_to in E.
  rewrite length_take, clamp_index_nonneg in E by lia.
  destruct l; [done|]. cbn [length] in E. lia.
Qed.

(** Cutting a joined name short cannot add tokens. *)
Lemma tokens_take_join ws n :
  Forall (λ w : str, code "_" ∉ w) ws →
  (length (tokens (take n (str_join (code "_") ws))) ≤ length ws)%nat.
Proof.
  intros Hws. revert n. induction Hws as [|w rest Hw Hrest IH]; intros n.
  - cbn [str_join]. by rewrite take_nil.
  - assert (Hone : ∀ m, (length (tokens (take m w)) ≤ 1)%nat).
    { intros m. unfold tokens. rewrite split_without.
      - destruct (decide (take m w = [])) as [E|E].
        + rewrite filter_cons_False by naive_solver. simpl. lia.
        + rewrite filter_cons_True by done. simpl. lia.
      - intros Hin. apply Hw. rewrite <- (take_drop m w). apply elem_of_app. by left. }
    cbn [str_join]. destruct rest as [|w2 rest].
    { simpl. apply Hone. }
    destruct (decide (n ≤ length w)%nat) as [Hn|Hn].
    + rewrite take_app_le by done. etrans; [apply Hone|]. simpl. lia.
    + rewrite take_app_ge by lia.
      destruct (n - length w)%nat as [|m] eqn:Em; [lia|]. cbn [take].
      unfold tokens. rewrite split_app_sep by done.
      specialize (IH m). unfold tokens in IH.
      destruct (decide (w = [])) as [E|E].
      * rewrite filter_cons_False by naive_solver. etrans; [apply IH|]. simpl. lia.
      * rewrite filter_cons_True by done. cbn [length]. apply le_n_S, IH.
Qed.

(** ** The sanitizer *)

Lemma below_range (n : nat) (P : char → Prop) :
  Forall P (N.of_nat <$> seq 0 n) → ∀ c, (c < N.of_nat n)%N → P c.
Proof.
  intros H c Hc. rewrite Forall_forall in H. apply H.
  apply list_elem_of_fmap. exists (N.to_nat c). split; [lia|]. apply elem_of_seq. lia.
Qed.

Lemma forallb_is_ascii s : forallb is_ascii s = true → Forall (λ c, is_ascii c = true) s.
Proof.
  induction s as [|c t IH]; simpl; [constructor|].
  intros [? ?]%andb_true_iff. constructor; [done|by apply IH].
Qed.

Lemma is_ascii_forallb s : Forall (λ c, is_ascii c = true) s → forallb is_ascii s = true.
Proof. induction 1 as [|c t Hc Ht IH]; simpl; [done|]. by rewrite Hc, IH. Qed.

Lemma lower_chr_idemp c : lower_chr (lower_chr c) = lower_chr c.
Proof.
  destruct (is_ascii c) eqn:E.
  - revert c E. check_ascii.
  - destruct (non_ascii c E) as (_ & _ & _ & -> & _). by destruct (non_ascii c E) as (_ & _ & _ & -> & _).
Qed.

Lemma lower_chr_ascii c : is_ascii (lower_chr c) = is_ascii c.
Proof.
  destruct (is_ascii c) eqn:E.
  - revert c E. check_ascii.
  - by destruct (non_ascii c E) as (_ & _ & _ & -> & _).
Qed.

Lemma is_lower_letter c : is_lower (lower_chr c) = true → (is_lower c || is_upper c)%bool = true.
Proof.
  destruct (is_ascii c) eqn:E.
  - revert c E. check_ascii.
  - destruct (non_ascii c E) as (_ & _ & _ & -> & _).
    destruct (non_ascii c E) as (-> & _). done.
Qed.

Lemma letter_is_ascii c : (is_lower c || is_upper c)%bool = true → is_ascii c = true.
Proof.
  destruct (is_ascii c) eqn:E; [done|].
  by destruct (non_ascii c E) as (-> & -> & _).
Qed.

Lemma token_chr_ascii c : token_chr c = true → is_ascii c = true.
Proof.
  destruct (is_ascii c) eqn:E; [done|]. unfold token_chr.
  by destruct (non_ascii c E) as (-> & _ & -> & _).
Qed.

Section sanitizer.
Context {U : Unicode}.

Lemma is_word_non_ascii c : is_ascii c = false → is_word c = u_alnum c.
Proof.
  intros H. unfold is_word, char_class. by rewrite H.
Qed.

Lemma plain_of_no_punctuation c : c = code "_" ∨ is_punctuation c = false → plain_chr c.
Proof.
  intros [->|H]; [by left|]. right. split; [done|]. by intros ->.
Qed.

Lemma is_word_lower_chr c : is_word (lower_chr c) = is_word c.
Proof.
  destruct (is_ascii c) eqn:E.
  - revert c E. check_ascii.
  - by destruct (non_ascii c E) as (_ & _ & _ & -> & _).
Qed.

Lemma letter_is_word c : (is_lower c || is_upper c)%bool = true → is_word c = true.
Proof.
  intros H. pose proof (letter_is_ascii c H) as E.
  revert c E H. check_ascii.
Qed.

Lemma is_word_lower c : is_ascii c = true → is_word c = true → plain_chr (lower_chr c).
Proof. unfold plain_chr. revert c. check_ascii. Qed.

Lemma is_word_underscore : is_word (code "_") = true.
Proof. reflexivity. Qed.

Lemma remove_non_word_chars s :
  Forall (λ c, (is_word c || is_space c)%bool = true) (remove_non_word s).
Proof.
  unfold remove_non_word. apply Forall_forall. by intros c [? _]%list_elem_of_filter.
Qed.

Lemma collapse_chars in_run s :
  Forall (λ c, (is_word c || is_space c)%bool = true) s →
  Forall (λ c, is_word c = true) (collapse in_run s).
Proof.
  intros H. revert in_run. induction H as [|c t Hc Ht IH]; intros in_run; simpl; [constructor|].
  unfold is_space_or_underscore.
  destruct (is_space c) eqn:Es; simpl.
  - destruct in_run; [apply IH|]. constructor; [done|apply IH].
  - destruct (chr_eqb c (code "_")).
    + destruct in_run; [apply IH|]. constructor; [done|apply IH].
    + constructor; [|apply IH]. by rewrite orb_false_r in Hc.
Qed.

(** Lower-casing word characters leaves no punctuation: computed on ASCII
    text, a fact of the database on any other. *)
Lemma lower_chars s :
  Forall (λ c, is_word c = true) s → Forall plain_chr (lower s).
Proof.
  intros H. unfold lower. destruct (forallb is_ascii s) eqn:E.
  2:{ eapply Forall_impl; [exact (u_lower_word s H)|]. apply plain_of_no_punctuation. }
  apply forallb_is_ascii in E. unfold lower_ascii.
  induction H as [|c t Hc Ht IH]; simpl; [constructor|].
  apply Forall_cons in E as [Ec Et].
  constructor; [by apply is_word_lower|by apply IH].
Qed.

Lemma plain_chr_underscore : plain_chr (code "_").
Proof. by left. Qed.

Lemma untitled_chars : Forall plain_chr untitled.
Proof. unfold plain_chr. compute_done. Qed.

Lemma words_filter_chars (P : char → Prop) (ws : list str) :
  Forall (Forall P) ws → Forall (Forall P) (filter (fun w : str => w ≠ []) ws).
Proof.
  rewrite !Forall_forall. intros H w [_ Hw]%list_elem_of_filter. by apply H.
Qed.

Section sanitize_filename.
Variables (name : str) (max_length max_words : Z).

Let sanitized : str :=
  strip (fun c => chr_eqb c (code "_"))
    (lower (collapse false (strip is_space
       (remove_non_word (remove_stop_words (path.splitext name).1))))).
Let limited_words : list str :=
  slice_to (filter (fun w : str => w ≠ []) (split (code "_") sanitized)) max_words.
Let limited_name : str := str_join (code "_") limited_words.

Lemma sanitize_filename_unfold :
  sanitize_filename name max_length max_words
  = if bool_decide (limited_name = []) then untitled
    else slice_to limited_name max_length.
Proof. reflexivity. Qed.

Lemma sanitized_chars : Forall plain_chr sanitized.
Proof.
  apply Forall_strip, lower_chars, collapse_chars, Forall_strip.
  apply remove_non_word_chars.
Qed.

Lemma limited_words_no_sep : Forall (λ w : str, code "_" ∉ w) limited_words.
Proof.
  apply Forall_take. apply Forall_forall.
  intros w [_ Hw]%list_elem_of_filter.
  pose proof (split_no_sep (code "_") sanitized) as H. rewrite Forall_forall in H.
  by apply H.
Qed.

Lemma limited_name_chars : Forall plain_chr limited_name.
Proof.
  apply Forall_str_join; [apply plain_chr_underscore|].
  apply Forall_take, words_filter_chars, Forall_split, sanitized_chars.
Qed.

Lemma sanitize_filename_chars :
  Forall plain_chr (sanitize_filename name max_length max_words).
Proof.
  rewrite sanitize_filename_unfold. case_bool_decide; [apply untitled_chars|].
  apply Forall_slice_to, limited_name_chars.
Qed.

Lemma sanitize_filename_nonempty :
  (1 ≤ max_length)%Z → sanitize_filename name max_length max_words ≠ [].
Proof.
  intros H. rewrite sanitize_filename_unfold. case_bool_decide; [done|].
  by apply slice_to_nonempty.
Qed.

Lemma sanitize_filename_length :
  (0 ≤ max_length)%Z →
  (Z.of_nat (length (sanitize_filename name max_length max_words)) ≤ max_length)%Z
  ∨ sanitize_filename name max_length max_words = untitled.
Proof.
  intros H. rewrite sanitize_filename_unfold. case_bool_decide; [by right|].
  left. by apply slice_to_length.
Qed.

Lemma sanitize_filename_tokens :
  (1 ≤ max_words)%Z →
  (Z.of_nat (length (tokens (sanitize_filename name max_length max_words))) ≤ max_words)%Z.
Proof.
  intros H. rewrite sanitize_filename_unfold. case_bool_decide.
  - change (length (tokens untitled)) with 1%nat. lia.
  - pose proof (tokens_take_join limited_words
                  (clamp_index max_length (length limited_name)) limited_words_no_sep) as H1.
    pose proof (slice_to_length (filter (fun w : str => w ≠ []) (split (code "_") sanitized))
                  max_words ltac:(lia)) as H2.
    change (slice_to (filter _ _) max_words) with limited_words in H2.
    change (slice_to limited_name max_length)
      with (take (clamp_index max_length (length limited_name))
              (str_join (code "_") limited_words)).
    lia.
Qed.
End sanitize_filename.

(** ** Removing stop words *)

Lemma stop_words_letters :
  Forall (λ a : str, a ≠ [] ∧ Forall (λ c, is_lower c = true) a) stop_words.
Proof. compute_done. Qed.

Lemma is_stop_word_letters w :
  is_stop_word w → w ≠ [] ∧ Forall (λ c, (is_lower c || is_upper c)%bool = true) w.
Proof.
  intros Hw. pose proof stop_words_letters as H. rewrite Forall_forall in H.
  destruct (H _ Hw) as [Hne Hlow]. split.
  - intros ->. by apply Hne.
  - clear Hne Hw H. revert Hlow. unfold lower_ascii.
    induction w as [|c t IH]; simpl; [constructor|].
    intros [Hc Ht]%Forall_cons. constructor; [by apply is_lower_letter|by apply IH].
Qed.

Lemma sub_empty_skip pattern u prev s :
  sub_empty pattern (length u) prev (u ++ s) = sub_empty pattern O (last_read prev u) s.
Proof.
  revert prev. induction u as [|c u IH]; intros prev; simpl.
  - by destruct s.
  - apply IH.
Qed.

(** An ASCII character matches its own lower-case letter. *)
Lemma match_chr_ci_own c : is_ascii c = true → match_chr_ci (lower_chr c) c = true.
Proof.
  intros E. unfold match_chr_ci. rewrite E, lower_chr_idemp. by apply chr_eqb_true.
Qed.

Lemma match_ci_own w prev s :
  Forall (λ c, is_ascii c = true) w →
  match_ci (lower_ascii w) prev (w ++ s) = Some (last_read prev w, s).
Proof.
  intros Hw. revert prev. induction Hw as [|c w Hc Hw IH]; intros prev; simpl; [done|].
  rewrite match_chr_ci_own by done. apply IH.
Qed.

Lemma last_read_word prev w :
  w ≠ [] → Forall (λ c, is_word c = true) w → is_word_opt (last_read prev w) = true.
Proof.
  intros Hne Hw. revert prev Hne.
  induction Hw as [|c t Hc Ht IH]; intros prev Hne; [done|]. simpl.
  destruct t as [|c' t']; [done|]. by apply IH.
Qed.

(** A character that matches a lowercase letter when case is ignored is
    a word character: computed inside ASCII, a fact of the database
    outside. *)
Lemma match_chr_ci_word a c :
  is_lower a = true → match_chr_ci a c = true → is_word c = true.
Proof.
  unfold match_chr_ci. destruct (is_ascii c) eqn:E.
  - intros Ha Hm%chr_eqb_true.
    rewrite <- is_word_lower_chr, <- Hm, is_word_lower_chr.
    apply letter_is_word. by rewrite Ha.
  - intros Ha Hm. rewrite is_word_non_ascii by done. by apply (u_ignorecase_alnum a).
Qed.

(** An alternative followed by a word boundary matches a whole word, as
    long as the character after the word, if any, does not match a word
    character. *)
Lemma match_ci_whole_word a w prev s before rest :
  (∀ x c, head s = Some c → is_lower x = true → match_chr_ci x c = true → is_word c = true) →
  a ≠ [] → Forall (λ c, is_lower c = true) a → Forall (λ c, is_word c = true) w →
  is_word_opt (head s) = false →
  match_ci a prev (w ++ s) = Some (before, rest) →
  word_boundary before rest = true →
  length a = length w.
Proof.
  intros Hhead Hne Ha. revert w prev Hne.
  induction Ha as [|x a' Hx Ha' IH]; intros w prev Hne Hw Hs Hm Hb; [done|].
  destruct w as [|c w'].
  - exfalso. simpl in Hm. destruct s as [|c t]; [done|].
    destruct (match_chr_ci x c) eqn:E; [|done].
    simpl in Hs. rewrite (Hhead x c) in Hs by done. done.
  - apply Forall_cons in Hw as [Hc Hw']. simpl in Hm.
    destruct (match_chr_ci x c); [|done].
    destruct a' as [|y a''].
    + simpl in Hm. injection Hm as <- <-.
      destruct w' as [|c' w'']; [done|]. exfalso.
      apply Forall_cons in Hw' as [Hc' _].
      unfold word_boundary in Hb. simpl in Hb. by rewrite Hc, Hc' in Hb.
    + simpl. f_equal. by eapply (IH w' (Some c)).
Qed.

Lemma match_alternatives_whole_word alts w prev s :
  Forall (λ a : str, a ≠ [] ∧ Forall (λ c, is_lower c = true) a) alts →
  lower_ascii w ∈ alts → w ≠ [] → Forall (λ c, is_ascii c = true) w →
  Forall (λ c, is_word c = true) w →
  is_word_opt (head s) = false →
  match_alternatives alts prev (w ++ s) = Some (length w).
Proof.
  intros Halts Hin Hne Hascii Hw Hs.
  assert (Hown : word_boundary (last_read prev w) s = true).
  { unfold word_boundary. by rewrite last_read_word, Hs. }
  induction Halts as [|a alts' [Hane Ha] _ IH]; [by apply elem_of_nil in Hin|].
  assert (Hnext : a ≠ lower_ascii w →
                  match_alternatives alts' prev (w ++ s) = Some (length w)).
  { intros Hna. apply IH. apply elem_of_cons in Hin as [E|E]; [by symmetry in E|done]. }
  simpl. destruct (match_ci a prev (w ++ s)) as [[before rest]|] eqn:Hm.
  - destruct (word_boundary before rest) eqn:Hb.
    + f_equal. eapply match_ci_whole_word; try done.
      intros x c _. apply match_chr_ci_word.
    + apply Hnext. intros ->. rewrite match_ci_own in Hm by done.
      injection Hm as <- <-. congruence.
  - apply Hnext. intros ->. by rewrite match_ci_own in Hm.
Qed.

Lemma stop_words_word_chars :
  Forall (λ a : str, a ≠ [] ∧ Forall (λ c, is_word c = true) a) stop_words.
Proof. compute_done. Qed.

(** A stop word that stands between non-word characters is removed. *)
Lemma sub_empty_stop_word w prev s :
  is_stop_word w → is_word_opt prev = false → is_word_opt (head s) = false →
  sub_empty match_stop_word O prev (w ++ s)
  = sub_empty match_stop_word O (last_read prev w) s.
Proof.
  intros Hw Hprev Hs. destruct (is_stop_word_letters w Hw) as [Hne Hletters].
  assert (Hword : Forall (λ c, is_word c = true) w).
  { eapply Forall_impl; [exact Hletters|]. apply letter_is_word. }
  assert (Hascii : Forall (λ c, is_ascii c = true) w).
  { eapply Forall_impl; [exact Hletters|]. apply letter_is_ascii. }
  assert (Hm : match_stop_word prev (w ++ s) = Some (length w)).
  { unfold match_stop_word.
    assert (word_boundary prev (w ++ s) = true) as ->.
    { unfold word_boundary. rewrite Hprev. destruct w as [|c t]; [done|].
      apply Forall_cons in Hword as [Hc _]. simpl. by rewrite Hc. }
    by apply match_alternatives_whole_word; [apply stop_words_letters|..]. }
  destruct w as [|c t]; [done|].
  change ((c :: t) ++ s) with (c :: (t ++ s)) in *.
  cbn [sub_empty]. rewrite Hm. cbn [length Nat.pred].
  apply (sub_empty_skip match_stop_word t (Some c) s).
Qed.

Lemma lstrip_all Q s : Forall (λ c, Q c = true) s → lstrip Q s = [].
Proof. induction 1 as [|c t Hc Ht IH]; simpl; [done|]. by rewrite Hc. Qed.

Lemma strip_all Q s : Forall (λ c, Q c = true) s → strip Q s = [].
Proof. intros H. unfold strip. by rewrite lstrip_all. Qed.

(** ** Inputs made of stop words *)

Example word_runs_ex : word_runs $"the_and of,THE  a1" = [ $"the_and"; $"of"; $"THE"; $"a1" ].
Proof. reflexivity. Qed.

Lemma word_runs_head_word c t :
  is_word c = true → ∃ r rs, word_runs (c :: t) = (c :: r) :: rs.
Proof.
  intros Hc. simpl. rewrite Hc.
  destruct (word_runs t) as [|r rs]; [by exists [], []|].
  destruct (is_word_opt (head t)); [by exists r, rs|by exists [], (r :: rs)].
Qed.

(** A text that starts with a word character starts with its first run. *)
Lemma word_runs_span c t :
  is_word c = true →
  ∃ w s, c :: t = w ++ s ∧ w ≠ [] ∧ Forall (λ x, is_word x = true) w
         ∧ is_word_opt (head s) = false ∧ word_runs (c :: t) = w :: word_runs s.
Proof.
  revert c. induction t as [|c' t IH]; intros c Hc.
  - exists [c], []. simpl. rewrite Hc. repeat split; [done|by repeat constructor].
  - destruct (is_word c') eqn:Hc'.
    + destruct (IH c' Hc') as (w & s & E & Hne & Hw & Hs & Hruns).
      exists (c :: w), s. rewrite E. repeat split; [done|by constructor|done|].
      rewrite <- E. change (word_runs (c :: c' :: t)) with
        (if is_word c then
           match word_runs (c' :: t) with
           | r :: rs => if is_word_opt (head (c' :: t)) then (c :: r) :: rs else [c] :: r :: rs
           | [] => [[c]]
           end
         else word_runs (c' :: t)).
      rewrite Hc, Hruns.
      change (is_word_opt (head (c' :: t))) with (is_word c'). by rewrite Hc'.
    + exists [c], (c' :: t). repeat split; [done|by repeat constructor|by simpl|].
      change (word_runs (c :: c' :: t)) with
        (if is_word c then
           match word_runs (c' :: t) with
           | r :: rs => if is_word_opt (head (c' :: t)) then (c :: r) :: rs else [c] :: r :: rs
           | [] => [[c]]
           end
         else word_runs (c' :: t)).
      rewrite Hc. destruct (word_runs (c' :: t)) as [|r rs]; [done|].
      change (is_word_opt (head (c' :: t))) with (is_word c'). by rewrite Hc'.
Qed.

Lemma word_runs_nil_head s : word_runs s = [] → is_word_opt (head s) = false.
Proof.
  destruct s as [|c t]; [done|]. simpl head. cbn [is_word_opt from_option].
  destruct (is_word c) eqn:Hc; [|done].
  destruct (word_runs_head_word c t Hc) as (r & rs & ->). done.
Qed.

(** A character that is not a word character separates the runs. *)
Lemma word_runs_app_sep a c b :
  is_word c = false → word_runs (a ++ c :: b) = word_runs a ++ word_runs b.
Proof.
  intros Hc. induction a as [|x a IH].
  - simpl. by rewrite Hc.
  - change ((x :: a) ++ c :: b) with (x :: (a ++ c :: b)).
    cbn [word_runs]. rewrite IH. destruct (is_word x); [|done].
    assert (Hhead : is_word_opt (head (a ++ c :: b)) = is_word_opt (head a) ∨ a = []).
    { destruct a; [by right|by left]. }
    destruct (word_runs a) as [|r rs] eqn:Hruns.
    + apply word_runs_nil_head in Hruns.
      assert (is_word_opt (head (a ++ c :: b)) = false) as ->.
      { destruct Hhead as [->| ->]; [done|]. simpl. by rewrite Hc. }
      simpl. by destruct (word_runs b).
    + destruct Hhead as [->| ->]; [|done]. simpl. by destruct (is_word_opt (head a)).
Qed.

Lemma match_alternatives_non_word alts prev s :
  Forall (λ a : str, a ≠ [] ∧ Forall (λ c, is_lower c = true) a) alts →
  is_word_opt (head s) = false →
  match_alternatives alts prev s = None.
Proof.
  intros Halts Hs. induction Halts as [|a alts' [Hne Ha] _ IH]; simpl; [done|].
  destruct a as [|x a']; [done|]. apply Forall_cons in Ha as [Hx _].
  destruct s as [|c t]; simpl; [done|].
  destruct (match_chr_ci x c) eqn:E; [|done].
  exfalso. simpl in Hs. rewrite (match_chr_ci_word x c) in Hs by done. done.
Qed.

(** When every run of word characters is a stop word, only the characters
    between the runs are left. *)
Lemma remove_stop_word_runs n s prev :
  (length s ≤ n)%nat →
  is_word_opt prev = false ∨ is_word_opt (head s) = false →
  Forall is_stop_word (word_runs s) →
  Forall (λ c, is_word c = false) (sub_empty match_stop_word O prev s).
Proof.
  revert s prev. induction n as [|n IH]; intros s prev Hn Hpos Hruns.
  { destruct s; [constructor|simpl in Hn; lia]. }
  destruct s as [|c t]; [constructor|].
  destruct (is_word c) eqn:Hc.
  - destruct Hpos as [Hprev|Hhead]; [|simpl in Hhead; congruence].
    destruct (word_runs_span c t Hc) as (w & s & E & Hne & Hw & Hs & Hspan).
    rewrite Hspan in Hruns. apply Forall_cons in Hruns as [Hstop Hruns].
    rewrite E, sub_empty_stop_word by done.
    apply IH; [|by right|done].
    apply (f_equal length) in E. rewrite length_app in E. simpl in E, Hn.
    destruct w; [done|]. simpl in E. lia.
  - cbn [sub_empty]. unfold match_stop_word.
    rewrite match_alternatives_non_word by (apply stop_words_letters || by simpl).
    assert (Hrest : Forall (λ c, is_word c = false)
                      (sub_empty match_stop_word O (Some c) t)).
    { apply IH; [simpl in Hn; lia|left; by simpl|]. simpl in Hruns. by rewrite Hc in Hruns. }
    destruct (word_boundary prev (c :: t)); by constructor.
Qed.

Lemma splitext_root p :
  (path.splitext p).1 = p ∨ ∃ rest, p = (path.splitext p).1 ++ path.extsep :: rest.
Proof.
  unfold path.splitext.
  destruct (rfind path.sep p <? rfind path.extsep p)%Z eqn:E; [|by left].
  destruct (existsb _ _); [|by left]. right. cbn [fst].
  apply Z.ltb_lt in E.
  pose proof (rfind_bounds path.sep p). pose proof (rfind_bounds path.extsep p).
  assert (Hdot : p !! Z.to_nat (rfind path.extsep p) = Some path.extsep)
    by (apply rfind_lookup; [done|lia]).
  unfold slice_to. rewrite clamp_index_nonneg by lia.
  rewrite Nat.min_r by lia.
  exists (drop (S (Z.to_nat (rfind path.extsep p))) p).
  symmetry. by apply take_drop_middle.
Qed.

Lemma non_word_filtered s :
  Forall (λ c, is_word c = false) s → Forall (λ c, is_space c = true) (remove_non_word s).
Proof.
  rewrite !Forall_forall. intros H c [Hkeep Hc]%list_elem_of_filter.
  apply H in Hc. by rewrite Hc in Hkeep.
Qed.

Lemma sanitize_filename_stop_words name max_length max_words :
  made_of_stop_words name → sanitize_filename name max_length max_words = untitled.
Proof.
  unfold made_of_stop_words. intros Hruns.
  assert (Hroot : Forall is_stop_word (word_runs (path.splitext name).1)).
  { destruct (splitext_root name) as [->|[rest E]]; [done|].
    rewrite E, word_runs_app_sep in Hruns by done.
    by apply Forall_app in Hruns as [? _]. }
  unfold sanitize_filename, remove_stop_words.
  rewrite (strip_all is_space).
  - simpl. unfold slice_to.
    rewrite filter_cons_False, filter_nil by naive_solver. by rewrite take_nil.
  - apply non_word_filtered. eapply remove_stop_word_runs; [done|by left|done].
Qed.

Lemma sanitize_filename_empty max_length max_words :
  sanitize_filename [] max_length max_words = untitled.
Proof.
  unfold sanitize_filename. cbn. destruct (decide _) as [?|_]; [done|].
  unfold slice_to. by rewrite !take_nil.
Qed.

End sanitizer.

(** Claim C4 (amended). For every input, [sanitize_filename] returns a string
    without path separator and without punctuation, the underscores that
    join its tokens apart; the empty string and every input whose words are
    all stop words give exactly [untitled], whatever the limits; the result
    is not empty when [max_length >= 1]; it has at most [max_length]
    characters, or is the eight-character fallback [untitled], when
    [max_length >= 0]; and it has at most [max_words] underscore-joined
    tokens when [max_words >= 1]. *)
Theorem sanitize_filename_guarantees (U : Unicode) name max_length max_words :
  let r := sanitize.sanitize_filename name max_length max_words in
  Forall plain_chr r
  ∧ sanitize.sanitize_filename [] max_length max_words = sanitize.untitled
  ∧ (made_of_stop_words name → r = sanitize.untitled)
  ∧ ((1 ≤ max_length)%Z → r ≠ [])
  ∧ ((0 ≤ max_length)%Z →
       (Z.of_nat (length r) ≤ max_length)%Z ∨ r = sanitize.untitled)
  ∧ ((1 ≤ max_words)%Z → (Z.of_nat (length (tokens r)) ≤ max_words)%Z).
Proof.
  cbv zeta. split; [apply sanitize_filename_chars|].
  split; [apply sanitize_filename_empty|].
  split; [apply sanitize_filename_stop_words|].
  split; [apply sanitize_filename_nonempty|].
  split; [apply sanitize_filename_length|apply sanitize_filename_tokens].
Qed.

Lemma sanitize_filename_guarantees_witness :
  let U := unicode_model.latin in
  let r := sanitize.sanitize_filename $"Summary of the Annual Report (final).pdf"
             sanitize.default_max_length sanitize.default_max_words in
  r = $"annual_report_final"
  ∧ Forall plain_chr r
  ∧ r ≠ []
  ∧ ((Z.of_nat (length r) ≤ 50)%Z ∨ r = sanitize.untitled)
  ∧ (Z.of_nat (length (tokens r)) ≤ 5)%Z
  ∧ made_of_stop_words $"The summary, OF this!"
  ∧ sanitize.sanitize_filename $"The summary, OF this!" 50 5 = sanitize.untitled
  ∧ sanitize.sanitize_filename [] 50 5 = sanitize.untitled.
Proof.
  intros U.
  assert (Hstop : made_of_stop_words $"The summary, OF this!").
  { unfold made_of_stop_words. simpl. repeat constructor; compute_done. }
  destruct (sanitize_filename_guarantees U $"Summary of the Annual Report (final).pdf"
              sanitize.default_max_length sanitize.default_max_words)
    as (Hchars & Hempty & _ & Hne & Hlen & Htok).
  split; [vm_compute; reflexivity|].
  split; [exact Hchars|].
  split; [apply Hne; unfold sanitize.default_max_length; lia|].
  split; [apply Hlen; unfold sanitize.default_max_length; lia|].
  split; [apply Htok; unfold sanitize.default_max_words; lia|].
  split; [exact Hstop|].
  split.
  - exact (proj1 (proj2 (proj2 (sanitize_filename_guarantees U $"The summary, OF this!" 50 5)))
             Hstop).
  - exact (proj1 (proj2 (sanitize_filename_guarantees U [] 50 5))).
Defined.

(** The limits are not always met, whatever the character database. *)
Lemma sanitize_filename_limits (U : Unicode) :
  sanitize.sanitize_filename $"hello" 0 5 = []
  ∧ sanitize.sanitize_filename $"the and of" 3 5 = $"untitled"
  ∧ tokens (sanitize.sanitize_filename $"hello world" 50 0) = [ $"untitled" ].
Proof. vm_compute. repeat split. Qed.

(** Claim C4 as stated fails: with [max_length = 0] a name comes out empty;
    the fallback has eight characters, more than a smaller [max_length];
    with [max_words = 0] the result still has one token. *)
Lemma sanitize_filename_limits_not_met :
  sanitize.sanitize_filename (U := unicode_model.latin) $"hello" 0 5 = []
  ∧ sanitize.sanitize_filename (U := unicode_model.latin) $"the and of" 3 5 = $"untitled"
  ∧ tokens (sanitize.sanitize_filename (U := unicode_model.latin) $"hello world" 50 0)
    = [ $"untitled" ].
Proof. apply sanitize_filename_limits. Qed.

(** Letters outside ASCII are kept and lower-cased, punctuation outside
    ASCII is removed. *)
Example sanitize_filename_accents :
  let U := unicode_model.latin in
  sanitize.sanitize_filename ($"Caf" ++ [0xe9%N] ++ $" Menu.pdf") 50 5
    = $"caf" ++ [0xe9%N] ++ $"_menu"
  ∧ sanitize.sanitize_filename ([0xc9%N] ++ $"t" ++ [0xe9%N; 0xbf%N; 0xa0%N] ++ $"2024") 50 5
    = [0xe9%N] ++ $"t" ++ [0xe9%N] ++ $"_2024".
Proof. vm_compute. split; reflexivity. Qed.

(** ** The loop over the candidate names *)

Section handle_duplicates.
Variables (renamed_files : gset str) (dir_path stem ext : str).

Let cand := candidate dir_path stem ext.
Let loop (fuel j : nat) :=
  handle_duplicates fuel renamed_files dir_path stem ext
    (candidate_name stem ext j) (cand j) (S j).

Lemma handle_duplicates_unfold fuel j :
  loop fuel j =
    if bool_decide (cand j ∈ renamed_files) then
      match fuel with
      | O => None
      | S fuel' => loop fuel' (S j)
      end
    else Some (candidate_name stem ext j, cand j).
Proof.
  unfold loop. destruct fuel; simpl; [done|].
  by replace (j + 1)%nat with (S j) by lia.
Qed.

Lemma candidate_numbered_inj n m : cand (S n) = cand (S m) → n = m.
Proof.
  unfold cand, candidate. simpl. intros E.
  apply join_inj in E; [|by rewrite !startswith_numbered].
  apply numbered_name_inj in E. lia.
Qed.

Lemma candidate_inj n m :
  startswith path.sep ext = false → cand n = cand m → n = m.
Proof.
  intros Hext. unfold cand, candidate. intros E.
  apply join_inj in E.
  - destruct n, m; simpl in E; [done| | |].
    + symmetry in E. by apply numbered_name_ne_plain in E.
    + by apply numbered_name_ne_plain in E.
    + by apply numbered_name_inj in E.
  - destruct n, m; simpl;
      rewrite ?startswith_numbered, ?startswith_plain by done; done.
Qed.

(** The loop stops at the first candidate that is free. *)
Lemma handle_duplicates_first_free k fuel j :
  (j ≤ k)%nat → (k - j ≤ fuel)%nat →
  (∀ i, (j ≤ i < k)%nat → cand i ∈ renamed_files) →
  cand k ∉ renamed_files →
  loop fuel j = Some (candidate_name stem ext k, cand k).
Proof.
  revert j. induction fuel as [|fuel IH]; intros j Hjk Hfuel Hin Hfree;
    rewrite handle_duplicates_unfold.
  - assert (j = k) as -> by lia. by rewrite bool_decide_eq_false_2.
  - destruct (decide (j = k)) as [->|Hne].
    + by rewrite bool_decide_eq_false_2.
    + rewrite bool_decide_eq_true_2 by (apply Hin; lia).
      apply IH; [lia|lia| |done]. intros i Hi. apply Hin. lia.
Qed.

Lemma handle_duplicates_exhausted fuel j :
  loop fuel j = None → ∀ i, (j ≤ i ≤ j + fuel)%nat → cand i ∈ renamed_files.
Proof.
  revert j. induction fuel as [|fuel IH]; intros j; rewrite handle_duplicates_unfold;
    case_bool_decide as Hj; try discriminate.
  - intros _ i Hi. by replace i with j by lia.
  - intros Hn i Hi. destruct (decide (i = j)) as [->|]; [done|].
    apply (IH (S j) Hn). lia.
Qed.

Lemma handle_duplicates_result fuel j name dest :
  loop fuel j = Some (name, dest) →
  ∃ k, (j ≤ k)%nat ∧ name = candidate_name stem ext k ∧ dest = cand k
       ∧ (cand k ∉ renamed_files) ∧ (∀ i, (j ≤ i < k)%nat → cand i ∈ renamed_files).
Proof.
  revert j. induction fuel as [|fuel IH]; intros j; rewrite handle_duplicates_unfold;
    case_bool_decide as Hj; try discriminate.
  - intros [= <- <-]. exists j. repeat split; [lia|done|]. intros; lia.
  - intros (k & ? & ? & ? & ? & Hk)%IH. exists k.
    repeat split; [lia|done..|].
    intros i Hi. destruct (decide (i = j)) as [->|]; [done|]. apply Hk. lia.
  - intros [= <- <-]. exists j. repeat split; [lia|done|]. intros; lia.
Qed.

(** More candidates than the set has elements cannot all be in it. *)
Lemma handle_duplicates_total : is_Some (loop (S (size renamed_files)) 0).
Proof.
  destruct (loop _ 0) eqn:E; [by eexists|]. exfalso.
  pose proof (handle_duplicates_exhausted _ _ E) as Hall.
  set (n := size renamed_files) in *.
  set (l := cand <$> seq 1 (S n)).
  assert (Hnd : NoDup l).
  { apply NoDup_fmap_2_strong; [|apply NoDup_seq].
    intros a b [Ha _]%elem_of_seq [Hb _]%elem_of_seq Hab.
    destruct a, b; try lia. f_equal. by apply candidate_numbered_inj. }
  assert (Hsub : (list_to_set l : gset str) ⊆ renamed_files).
  { intros x [i [-> Hi%elem_of_seq]]%elem_of_list_to_set%list_elem_of_fmap.
    apply Hall. lia. }
  apply subseteq_size in Hsub.
  rewrite size_list_to_set in Hsub by done.
  unfold l in Hsub. rewrite length_fmap, length_seq in Hsub. lia.
Qed.

End handle_duplicates.

(** ** The metadata planner *)

Lemma compute_operations_total data_list new_path renamed_files processed_files :
  is_Some (compute_operations data_list new_path renamed_files processed_files).
Proof.
  revert renamed_files processed_files.
  induction data_list as [|data rest IH]; intros R P; cbn [compute_operations];
    [by eexists|].
  case_bool_decide; [apply IH|].
  destruct (handle_duplicates_total R (path.join new_path (foldername data)) (filename data)
              (path.splitext (file_path data)).2) as [[name dest] Hloop].
  unfold candidate, candidate_name in Hloop. rewrite Hloop.
  destruct (IH ({[dest]} ∪ R) ({[file_path data]} ∪ P)) as [[[ops R'] P'] ->].
  by eexists.
Qed.

(** What a call leaves: the destinations are new, pairwise distinct, and
    all added to the set of allocated destinations. *)
Lemma compute_operations_allocates data_list new_path renamed_files processed_files
    ops renamed_files' processed_files' :
  compute_operations data_list new_path renamed_files processed_files
    = Some (ops, renamed_files', processed_files') →
  NoDup (destination <$> ops)
  ∧ Forall (λ op, destination op ∉ renamed_files) ops
  ∧ renamed_files' = list_to_set (destination <$> ops) ∪ renamed_files.
Proof.
  revert renamed_files processed_files ops.
  induction data_list as [|data rest IH]; intros R P ops; cbn [compute_operations].
  - intros [= <- <- <-]. split; [constructor|]. split; [constructor|]. set_solver.
  - case_bool_decide; [apply IH|].
    destruct (handle_duplicates _ _ _ _ _ _ _ _) as [[name dest]|] eqn:Hloop; [|done].
    destruct (compute_operations rest _ _ _) as [[[ops0 R0] P0]|] eqn:Hrest; [|done].
    intros [= <- <- <-].
    apply IH in Hrest as (Hnd & Hnew & ->).
    apply (handle_duplicates_result R _ _ _ _ 0%nat) in Hloop as (k & _ & _ & -> & Hfree & _).
    simpl. split; [|split].
    + constructor; [|done].
      intros Hin%list_elem_of_fmap. destruct Hin as (op & Hop & Hin).
      rewrite Forall_forall in Hnew. apply Hnew in Hin. set_solver.
    + constructor; [done|].
      eapply Forall_impl; [exact Hnew|]. simpl. set_solver.
    + set_solver.
Qed.

Lemma process_files_by_type_destinations `{U : Unicode} file_paths output_path :
  destination <$> process_files_by_type file_paths output_path
  = type_destination output_path <$> filter (λ p, is_hidden p = false) file_paths.
Proof.
  induction file_paths as [|p rest IH]; [done|].
  cbn [process_files_by_type]. destruct (is_hidden p) eqn:E.
  - by rewrite filter_cons_False by (by rewrite E).
  - rewrite filter_cons_True by done. rewrite !fmap_cons. by f_equal.
Qed.

Lemma process_files_by_type_sources `{U : Unicode} file_paths output_path :
  source <$> process_files_by_type file_paths output_path
  = filter (λ p, is_hidden p = false) file_paths.
Proof.
  induction file_paths as [|p rest IH]; [done|].
  cbn [process_files_by_type]. destruct (is_hidden p) eqn:E.
  - by rewrite filter_cons_False by (by rewrite E).
  - rewrite filter_cons_True by done. rewrite !fmap_cons. by f_equal.
Qed.

Lemma process_files_by_date_destinations `{os : OS} (fs : FS) file_paths output_path ops :
  process_files_by_date fs file_paths output_path = Ok ops →
  Some <$> (destination <$> ops) = date_destination fs output_path <$> file_paths
  ∧ source <$> ops = file_paths.
Proof.
  revert ops. induction file_paths as [|p rest IH]; intros ops;
    cbn [process_files_by_date].
  - by intros [= <-].
  - rewrite !fmap_cons. unfold date_destination at 1.
    destruct (os_getmtime p fs) as [t|e]; [|done].
    destruct (fromtimestamp t) as [d|e]; [|done].
    destruct (process_files_by_date fs rest output_path) as [ops0|]; [|done].
    intros [= <-]. destruct (IH ops0 eq_refl) as [<- <-]. done.
Qed.

(** The first source whose modification time cannot be read, or is not a
    date, makes the call raise. *)
Lemma process_files_by_date_raises `{os : OS} (fs : FS) before file_path after output_path e :
  Forall (dated fs) before →
  os_getmtime file_path fs = Raise e
  ∨ (∃ t, os_getmtime file_path fs = Ok t ∧ fromtimestamp t = Raise e) →
  process_files_by_date fs (before ++ file_path :: after) output_path = Raise e.
Proof.
  intros Hbefore He. induction Hbefore as [|p before (t & d & Ht & Hd) _ IH]; simpl.
  - destruct He as [->|(t & -> & ->)]; done.
  - by rewrite Ht, Hd, IH.
Qed.

Lemma process_files_by_date_returns `{os : OS} (fs : FS) file_paths output_path :
  Forall (dated fs) file_paths →
  ∃ ops, process_files_by_date fs file_paths output_path = Ok ops.
Proof.
  induction 1 as [|p rest (t & d & Ht & Hd) _ [ops IH]]; simpl; [by eexists|].
  rewrite Ht, Hd, IH. by eexists.
Qed.

(** A list with a source that cannot be read has a first source that is
    not dated. *)
Lemma first_undated `{os : OS} (fs : FS) file_paths :
  Exists (λ p, ∃ e, os_getmtime p fs = Raise e) file_paths →
  ∃ before p after e,
    file_paths = before ++ p :: after ∧ Forall (dated fs) before
    ∧ (os_getmtime p fs = Raise e
       ∨ ∃ t, os_getmtime p fs = Ok t ∧ fromtimestamp t = Raise e).
Proof.
  induction file_paths as [|p rest IH]; intros Hex; [by apply Exists_nil in Hex|].
  destruct (os_getmtime p fs) as [t|e] eqn:Hp.
  - destruct (fromtimestamp t) as [d|e] eqn:Hd.
    + apply Exists_cons in Hex as [[e He]|Hex]; [congruence|].
      destruct (IH Hex) as (before & q & after & e & -> & Hbefore & Hq).
      exists (p :: before), q, after, e. split; [done|]. split; [|done].
      constructor; [by exists t, d|done].
    + exists [], p, rest, e. split; [done|]. split; [constructor|]. right. by exists t.
  - exists [], p, rest, e. split; [done|]. split; [constructor|]. by left.
Qed.

(** Claim C2 (amended). Two records with the same folder and the same name
    but distinct sources, planned from empty sets: the first destination is
    folder/name + first extension, unsuffixed; the second is
    folder/name_1 + extension when both sources have the same extension, and
    folder/name + second extension, unsuffixed, when the extensions differ;
    in both cases it differs from the first. *)
Theorem compute_operations_same_stem d1 d2 new_path :
  same_stem_pair d1 d2 →
  let dir_path := path.join new_path (foldername d1) in
  let stem := filename d1 in
  let ext1 := (path.splitext (file_path d1)).2 in
  let ext2 := (path.splitext (file_path d2)).2 in
  ∃ op1 op2 renamed_files processed_files,
    compute_operations [d1; d2] new_path ∅ ∅
      = Some ([op1; op2], renamed_files, processed_files)
    ∧ destination op1 = path.join dir_path (stem ++ ext1)
    ∧ destination op2 =
        (if bool_decide (ext1 = ext2)
         then path.join dir_path (numbered_name stem ext2 1)
         else path.join dir_path (stem ++ ext2))
    ∧ destination op2 ≠ destination op1.
Proof.
  intros (Hpath & Hfolder & Hstem) dir_path stem ext1 ext2.
  assert (H1 : startswith path.sep ext1 = false) by apply splitext_ext_startswith.
  assert (H2 : startswith path.sep ext2 = false) by apply splitext_ext_startswith.
  cbn [compute_operations].
  rewrite bool_decide_eq_false_2 by set_solver.
  rewrite (handle_duplicates_first_free ∅ dir_path stem ext1 0 _ 0)
    by (done || lia || set_solver).
  rewrite <- Hfolder, <- Hstem.
  rewrite bool_decide_eq_false_2 by set_solver.
  fold dir_path stem ext1 ext2.
  set (R := {[candidate dir_path stem ext1 0]} ∪ ∅ : gset str).
  assert (Hne : ext1 ≠ ext2 → candidate dir_path stem ext2 0 ∉ R).
  { intros Hne Hin. apply Hne. unfold R, candidate in Hin. simpl in Hin.
    assert (E : path.join dir_path (stem ++ ext2) = path.join dir_path (stem ++ ext1))
      by set_solver.
    apply join_inj in E; [|by rewrite !startswith_plain].
    by apply app_inv_head in E. }
  case_bool_decide as Hext.
  - rewrite <- Hext in *.
    rewrite (handle_duplicates_first_free R dir_path stem ext1 1 _ 0).
    + do 4 eexists. split; [done|]. simpl. repeat split.
      intros E. by apply (candidate_inj dir_path stem ext1 1 0) in E.
    + lia.
    + lia.
    + intros i Hi. replace i with 0%nat by lia. set_solver.
    + intros Hin.
      assert (E : candidate dir_path stem ext1 1 = candidate dir_path stem ext1 0)
        by set_solver.
      by apply candidate_inj in E.
  - rewrite (handle_duplicates_first_free R dir_path stem ext2 0 _ 0) by (lia || auto).
    do 4 eexists. split; [done|]. simpl. repeat split.
    intros E. apply (Hne Hext). unfold R. simpl in E. rewrite E. set_solver.
Qed.

(** Two reports with the extension [.txt]. *)
Lemma compute_operations_same_stem_witness :
  same_stem_pair (scenario.report $"/in/a.txt") (scenario.report $"/in/b.txt") ∧
  ∃ op1 op2 renamed_files processed_files,
    compute_operations [scenario.report $"/in/a.txt"; scenario.report $"/in/b.txt"] $"/out" ∅ ∅
      = Some ([op1; op2], renamed_files, processed_files)
    ∧ destination op1 = $"/out/docs/report.txt"
    ∧ destination op2 = $"/out/docs/report_1.txt"
    ∧ destination op2 ≠ destination op1.
Proof.
  assert (H : same_stem_pair (scenario.report $"/in/a.txt") (scenario.report $"/in/b.txt"))
    by (repeat split; discriminate).
  split; [exact H|].
  exact (compute_operations_same_stem
           (scenario.report $"/in/a.txt") (scenario.report $"/in/b.txt") $"/out" H).
Defined.

(** Claim C2 as stated fails when the two sources differ in extension: the
    second candidate [report.pdf] is not the first destination
    [report.txt], so it is taken without a suffix. *)
Lemma second_destination_not_suffixed :
  same_stem_pair (scenario.report $"/in/a.txt") (scenario.report $"/in/c.pdf")
  ∧ (λ r : list Operation * gset str * gset str, destination <$> r.1.1)
      <$> compute_operations [scenario.report $"/in/a.txt"; scenario.report $"/in/c.pdf"]
            $"/out" ∅ ∅
    = Some [ $"/out/docs/report.txt"; $"/out/docs/report.pdf" ]
  ∧ ¬ ∃ op1 op2 renamed_files processed_files,
      compute_operations [scenario.report $"/in/a.txt"; scenario.report $"/in/c.pdf"]
        $"/out" ∅ ∅
        = Some ([op1; op2], renamed_files, processed_files)
      ∧ destination op2 = $"/out/docs/report_1.pdf".
Proof.
  assert (E : (λ r : list Operation * gset str * gset str, destination <$> r.1.1)
      <$> compute_operations [scenario.report $"/in/a.txt"; scenario.report $"/in/c.pdf"]
            $"/out" ∅ ∅
    = Some [ $"/out/docs/report.txt"; $"/out/docs/report.pdf" ])
    by (vm_compute; reflexivity).
  split; [repeat split; discriminate|]. split; [exact E|].
  intros (op1 & op2 & R & P & Hc & Hd).
  rewrite Hc in E. simpl in E. rewrite Hd in E. discriminate.
Qed.

(** Two sources with the same base name in different directories get the
    same destination from the type planner, whatever the character
    database. *)
Lemma process_files_by_type_collision (U : Unicode) :
  ¬ NoDup (destination <$> process_files_by_type [$"/a/x.txt"; $"/b/x.txt"] $"/out").
Proof.
  vm_compute. intros Hnd. apply NoDup_cons in Hnd as [Hnotin _].
  apply Hnotin. left.
Qed.

(** Claim C3 as stated fails for the type planner: two sources with the same
    base name in different directories get the same destination. *)
Lemma by_type_destinations_collide :
  ¬ NoDup (destination <$> process_files_by_type (U := unicode_model.latin)
                             [$"/a/x.txt"; $"/b/x.txt"] $"/out").
Proof. apply process_files_by_type_collision. Qed.

Lemma compute_operations_sources_of data_list new_path renamed_files processed_files
    ops renamed_files' processed_files' :
  compute_operations data_list new_path renamed_files processed_files
    = Some (ops, renamed_files', processed_files') →
  source <$> ops = first_occurrences processed_files (file_path <$> data_list).
Proof.
  revert renamed_files processed_files ops.
  induction data_list as [|d rest IH]; intros R P ops; cbn [compute_operations].
  - by intros [= <- <- <-].
  - rewrite fmap_cons. cbn [first_occurrences]. case_bool_decide as Hd; [apply IH|].
    destruct (handle_duplicates _ _ _ _ _ _ _ _) as [[name dest]|] eqn:Hloop; [|done].
    destruct (compute_operations rest _ _ _) as [[[ops0 R0] P0]|] eqn:Hrest; [|done].
    intros [= <- <- <-]. rewrite fmap_cons. f_equal. by apply IH in Hrest.
Qed.

(** Every operation of the metadata planner takes the first candidate of
    its record that is free: not allocated before the call and not the
    destination of an earlier operation of the call. *)
Lemma compute_operations_takes_first_free data_list new_path renamed_files processed_files
    ops renamed_files' processed_files' :
  compute_operations data_list new_path renamed_files processed_files
    = Some (ops, renamed_files', processed_files') →
  ∀ i op, ops !! i = Some op →
    ∃ d, d ∈ data_list
         ∧ first_free new_path
             (list_to_set (destination <$> take i ops) ∪ renamed_files) d op.
Proof.
  revert renamed_files processed_files ops.
  induction data_list as [|data rest IH]; intros R P ops; cbn [compute_operations].
  - intros [= <- <- <-] i op Hi. by rewrite lookup_nil in Hi.
  - case_bool_decide.
    + intros Hrest i op Hi. destruct (IH _ _ _ Hrest i op Hi) as (d & Hd & Hfree).
      exists d. split; [by right|done].
    + destruct (handle_duplicates _ _ _ _ _ _ _ _) as [[name dest]|] eqn:Hloop; [|done].
      destruct (compute_operations rest _ _ _) as [[[ops0 R0] P0]|] eqn:Hrest; [|done].
      intros [= <- <- <-] i op Hi.
      apply (handle_duplicates_result R _ _ _ _ 0%nat) in Hloop
        as (k & _ & -> & -> & Hfree & Hbelow).
      destruct i as [|i]; simpl in Hi.
      * injection Hi as <-. exists data. split; [by left|].
        split; [done|]. exists k. cbn [take fmap list_fmap list_to_set].
        split; [done|]. split; [done|]. split; [set_solver|].
        intros j Hj. apply elem_of_union_r, Hbelow. lia.
      * destruct (IH _ _ _ Hrest i op Hi) as (d & Hd & Hsrc & j & Hname & Hdest & Hfr & Hbel).
        exists d. split; [by right|]. split; [done|]. exists j.
        split; [done|]. split; [done|].
        cbn [take]. rewrite fmap_cons. cbn [list_to_set destination].
        split; [set_solver|]. intros l Hl. specialize (Hbel l Hl). set_solver.
Qed.

(** Claim C3 (amended). The metadata planner always returns, with one
    operation for each source not processed before, in order; the
    destinations of one call are pairwise distinct and distinct from every
    destination allocated before the call; and each operation has the
    first candidate of its record (the plain name, then the names with the
    numeric suffixes 1, 2, ...) that is neither allocated before the call
    nor the destination of an earlier operation of the call, so that a
    duplicate is renamed with a numeric suffix before it is emitted. The
    type planner and the date planner rename nothing: the destination of
    each source they keep is computed from that source alone
    (output/folder/basename), so that two sources may share a
    destination. *)
Theorem planned_destinations :
  (∀ data_list new_path renamed_files processed_files,
     ∃ ops renamed_files' processed_files',
       compute_operations data_list new_path renamed_files processed_files
         = Some (ops, renamed_files', processed_files')
       ∧ source <$> ops = first_occurrences processed_files (file_path <$> data_list)
       ∧ NoDup (destination <$> ops)
       ∧ Forall (λ op, destination op ∉ renamed_files) ops
       ∧ ∀ i op, ops !! i = Some op →
           ∃ d, d ∈ data_list
                ∧ first_free new_path
                    (list_to_set (destination <$> take i ops) ∪ renamed_files) d op)
  ∧ (∀ (U : Unicode) file_paths output_path,
       destination <$> process_files_by_type file_paths output_path
       = type_destination output_path <$> filter (λ p, is_hidden p = false) file_paths)
  ∧ (∀ (os : OS) (fs : FS) file_paths output_path,
       match process_files_by_date fs file_paths output_path with
       | Ok ops =>
           Some <$> (destination <$> ops) = date_destination fs output_path <$> file_paths
       | Raise _ => True
       end).
Proof.
  split; [|split].
  - intros ds np R P.
    destruct (compute_operations_total ds np R P) as [[[ops R'] P'] E].
    exists ops, R', P'. split; [done|].
    split; [by apply compute_operations_sources_of in E|].
    pose proof (compute_operations_takes_first_free _ _ _ _ _ _ _ E) as Hfirst.
    apply compute_operations_allocates in E as (? & ? & _). done.
  - intros U. apply process_files_by_type_destinations.
  - intros os fs paths out.
    destruct (process_files_by_date fs paths out) as [ops|] eqn:E; [|done].
    by apply process_files_by_date_destinations in E as [? _].
Qed.

(** Three reports with the same extension: the second and the third are
    renamed. *)
Example compute_operations_renames_duplicates :
  (λ r : list Operation * gset str * gset str, destination <$> r.1.1)
    <$> compute_operations
          [ scenario.report $"/in/a.txt"; scenario.report $"/in/b.txt";
            scenario.report $"/in/a.txt"; scenario.report $"/in/c.txt" ] $"/out" ∅ ∅
  = Some [ $"/out/docs/report.txt"; $"/out/docs/report_1.txt"; $"/out/docs/report_2.txt" ].
Proof. vm_compute. reflexivity. Qed.

(** Claim C5. Records that ask for the same folder, name and extension, with
    distinct sources not yet processed, planned with a set of allocated
    destinations that holds the plain name and the names numbered 1 to [k]
    and none of the following ones: the records get the names numbered
    [k+1], [k+2], ... in order; the numbering goes on where the set left it. *)
Theorem compute_operations_continues_counter
    data_list new_path folder stem ext renamed_files processed_files k :
  let cand := candidate (path.join new_path folder) stem ext in
  Forall (same_target folder stem ext) data_list →
  NoDup (file_path <$> data_list) →
  Forall (λ d, file_path d ∉ processed_files) data_list →
  Forall (λ i, cand i ∈ renamed_files) (seq 0 (S k)) →
  Forall (λ i, cand i ∉ renamed_files) (seq (S k) (length data_list)) →
  ∃ ops renamed_files' processed_files',
    compute_operations data_list new_path renamed_files processed_files
      = Some (ops, renamed_files', processed_files')
    ∧ destination <$> ops = cand <$> seq (S k) (length data_list)
    ∧ new_file_name <$> ops
      = (λ i, Some (numbered_name stem ext i)) <$> seq (S k) (length data_list).
Proof.
  intros cand. revert renamed_files processed_files k.
  induction data_list as [|d rest IH]; intros R P k Hsame Hnd Hnew Hin Hfree.
  { by exists [], R, P. }
  apply Forall_cons in Hsame as [(Hfolder & Hstem & Hext) Hsame].
  rewrite fmap_cons in Hnd. apply NoDup_cons in Hnd as [Hd Hnd].
  apply Forall_cons in Hnew as [HdP Hnew].
  cbn [length seq] in Hfree. apply Forall_cons in Hfree as [Hk Hfree].
  rewrite Forall_forall in Hin. rewrite Forall_forall in Hfree.
  cbn [compute_operations].
  rewrite bool_decide_eq_false_2 by done.
  rewrite Hfolder, Hstem, Hext.
  destruct (handle_duplicates_total R (path.join new_path folder) stem ext) as [[name dest] Hloop].
  pose proof Hloop as Hsome.
  apply (handle_duplicates_result R _ _ _ _ 0%nat) in Hsome as (j & _ & -> & -> & Hj & Hbelow).
  assert (j = S k) as ->.
  { destruct (Nat.lt_trichotomy j (S k)) as [Hlt|[->|Hgt]]; [|done|].
    - exfalso. apply Hj. apply Hin, elem_of_seq. lia.
    - exfalso. apply Hk. apply Hbelow. lia. }
  unfold candidate, candidate_name in Hloop. rewrite Hloop.
  destruct (IH ({[cand (S k)]} ∪ R) ({[file_path d]} ∪ P) (S k))
    as (ops & R' & P' & Hrec & Hdest & Hnames).
  - done.
  - done.
  - rewrite Forall_forall in Hnew. apply Forall_forall. intros d' Hd'.
    apply not_elem_of_union. split; [|by apply Hnew].
    apply not_elem_of_singleton. intros E. apply Hd.
    apply list_elem_of_fmap. by exists d'.
  - apply Forall_forall. intros i [_ Hi]%elem_of_seq.
    destruct (decide (i = S k)) as [->|]; [set_solver|].
    apply elem_of_union_r, Hin, elem_of_seq. lia.
  - apply Forall_forall. intros i Hi.
    apply not_elem_of_union. split; [|by apply Hfree].
    apply not_elem_of_singleton. intros E.
    apply elem_of_seq in Hi as [Hi _].
    destruct i; [lia|].
    apply (candidate_numbered_inj (path.join new_path folder) stem ext) in E. lia.
  - unfold cand, candidate, candidate_name in Hrec. rewrite Hrec.
    do 3 eexists. split; [done|].
    cbn [length seq]. rewrite !fmap_cons. cbn [destination new_file_name].
    by rewrite Hdest, Hnames.
Qed.

(** After [report.txt] and [report_1.txt], two more reports get [_2] and
    [_3]. *)
Lemma compute_operations_continues_counter_witness :
  ∃ ops renamed_files' processed_files',
    compute_operations [scenario.report $"/in/d.txt"; scenario.report $"/in/e.txt"]
      $"/out" scenario.earlier_allocations scenario.earlier_sources
      = Some (ops, renamed_files', processed_files')
    ∧ destination <$> ops = [ $"/out/docs/report_2.txt"; $"/out/docs/report_3.txt" ]
    ∧ new_file_name <$> ops = [ Some $"report_2.txt"; Some $"report_3.txt" ].
Proof.
  apply (compute_operations_continues_counter
           [scenario.report $"/in/d.txt"; scenario.report $"/in/e.txt"]
           $"/out" $"docs" $"report" $".txt"
           scenario.earlier_allocations scenario.earlier_sources 1).
  - repeat constructor.
  - compute_done.
  - compute_done.
  - compute_done.
  - compute_done.
Defined.

(** Claim C7. The type planner emits operations for exactly the paths whose
    base name does not start with a dot, in order; no operation has a hidden
    source, whatever its extension. *)
Theorem process_files_by_type_skips_hidden (U : Unicode) file_paths output_path :
  source <$> process_files_by_type file_paths output_path
    = filter (λ p, is_hidden p = false) file_paths
  ∧ Forall (λ op, startswith (code ".") (path.basename (source op)) = false)
      (process_files_by_type file_paths output_path).
Proof.
  split; [apply process_files_by_type_sources|].
  induction file_paths as [|p rest IH]; cbn [process_files_by_type]; [constructor|].
  destruct (is_hidden p) eqn:E; [done|]. by constructor.
Qed.

(** Hidden files with a listed extension are left out. *)
Example hidden_recognised_extension (U : Unicode) :
  process_files_by_type [$"/in/.notes.txt"; $"/in/notes.txt"; $"/in/.zip"] $"/out"
  = [ {| source := $"/in/notes.txt"; destination := $"/out/documents/plain_text/notes.txt";
         link_type := hardlink; folder_name := None; new_file_name := None |} ].
Proof. vm_compute. reflexivity. Qed.

(** Claim C9. If the modification time of some source of the list cannot be
    read, the date planner raises and returns no operation at all, also
    when sources before it were readable. The exception is that of the
    first source of the list whose modification time cannot be read or is
    not a date; when every source before the first unreadable one has a
    date, it is the exception of that unreadable source. *)
Theorem process_files_by_date_all_or_nothing `{os : OS} (fs : FS) file_paths output_path :
  Exists (λ p, ∃ e, os_getmtime p fs = Raise e) file_paths →
  ∃ before p after e,
    file_paths = before ++ p :: after
    ∧ Forall (dated fs) before
    ∧ (os_getmtime p fs = Raise e
       ∨ ∃ t, os_getmtime p fs = Ok t ∧ fromtimestamp t = Raise e)
    ∧ process_files_by_date fs file_paths output_path = Raise e.
Proof.
  intros (before & p & after & e & -> & Hbefore & Hp)%first_undated.
  exists before, p, after, e. split; [done|]. split; [done|]. split; [done|].
  by apply process_files_by_date_raises.
Qed.

(** A missing source between two existing ones. *)
Lemma process_files_by_date_all_or_nothing_witness :
  ∃ before p after e,
    [ $"/in/a.txt"; $"/in/missing.txt"; $"/in/b.txt" ] = before ++ p :: after
    ∧ Forall (dated (os := posix_model.os) scenario.two_files) before
    ∧ (os_getmtime (OS := posix_model.os) p scenario.two_files = Raise e
       ∨ ∃ t, os_getmtime (OS := posix_model.os) p scenario.two_files = Ok t
              ∧ fromtimestamp (OS := posix_model.os) t = Raise e)
    ∧ process_files_by_date (os := posix_model.os) scenario.two_files
        [ $"/in/a.txt"; $"/in/missing.txt"; $"/in/b.txt" ] $"/out" = Raise e.
Proof.
  apply (process_files_by_date_all_or_nothing (os := posix_model.os)).
  apply Exists_cons_tl, Exists_cons_hd. eexists. vm_compute. reflexivity.
Defined.

(** The exception is the one of the first unreadable source, and the
    operations planned before it are lost. *)
Example process_files_by_date_missing_source :
  process_files_by_date (os := posix_model.os) scenario.two_files
    [ $"/in/a.txt"; $"/in/missing.txt"; $"/in/b.txt" ] $"/out"
  = Raise $"[Errno 2] No such file or directory: '/in/missing.txt'"
  ∧ fmap (M := list) destination <$>
      match process_files_by_date (os := posix_model.os) scenario.two_files
              [ $"/in/a.txt"; $"/in/b.txt" ] $"/out" with
      | Ok ops => Some ops
      | Raise _ => None
      end
    = Some [ $"/out/2024/March/a.txt"; $"/out/2023/December/b.txt" ].
Proof. vm_compute. split; reflexivity. Qed.

(** ** The type planner *)

Lemma foldl_insert_lookup {V} (l : list (str * V)) (m : gmap str V) k :
  foldl (λ m kv, <[kv.1 := kv.2]> m) m l !! k
  = match last (filter (λ kv : str * V, kv.1 = k) l) with
    | Some kv => Some kv.2
    | None => m !! k
    end.
Proof.
  induction l as [|[k' v] l IH] using rev_ind; [done|].
  rewrite foldl_app, filter_app. simpl.
  destruct (decide (k' = k)) as [->|Hne].
  - rewrite filter_cons_True by done. rewrite filter_nil, last_snoc. simpl.
    by rewrite lookup_insert_eq.
  - rewrite filter_cons_False by done. rewrite filter_nil, app_nil_r.
    by rewrite lookup_insert_ne.
Qed.

Lemma nested_foldl_flat (cats : list (str * list (str * list str))) (m : gmap str (str * str)) :
  foldl (fun m (entry : str * list (str * list str)) =>
    foldl (fun m (sub : str * list str) =>
      foldl (fun m ext => <[ext := (entry.1, sub.1)]> m) m sub.2) m entry.2) m cats
  = foldl (λ m kv, <[kv.1 := kv.2]> m) m
      (entry ← cats; sub ← entry.2; ext ← sub.2; [(ext, (entry.1, sub.1))]).
Proof.
  revert m. induction cats as [|[main subs] cats IHc]; intros m; [done|].
  rewrite bind_cons, foldl_app, <- IHc. cbn [foldl]. f_equal. clear IHc.
  cbn [fst snd].
  revert m. induction subs as [|[sub exts] subs IHs]; intros m; [done|].
  rewrite bind_cons, foldl_app, <- IHs. cbn [foldl]. f_equal. clear IHs.
  cbn [fst snd].
  revert m. induction exts as [|ext exts IHe]; intros m; [done|].
  rewrite bind_cons, foldl_app, <- IHe. done.
Qed.

Lemma extension_to_category_flat :
  extension_to_category = foldl (λ m kv, <[kv.1 := kv.2]> m) ∅ flat_listing.
Proof. apply nested_foldl_flat. Qed.

(** The flat table holds, for each extension, its last listing. *)
Lemma extension_to_category_lookup ext :
  extension_to_category !! ext = last (listings ext).
Proof.
  rewrite extension_to_category_flat, foldl_insert_lookup.
  unfold listings. rewrite fmap_last, lookup_empty.
  by destruct (last _).
Qed.

Lemma flat_listing_folders :
  Forall (λ e : str * (str * str),
            (if bool_decide (e.2.1 ∈ single_subcategory_mains)
             then e.2.1 else path.join e.2.1 e.2.2)
            = listing_folder e.2) flat_listing.
Proof. unfold listing_folder. compute_done. Qed.

Lemma type_folder_name_expected `{U : Unicode} file_path :
  type_folder_name file_path = expected_folder file_path.
Proof.
  unfold type_folder_name, expected_folder.
  rewrite extension_to_category_lookup.
  destruct (last _) as [[main sub]|] eqn:E; [|done].
  apply last_Some_elem_of in E. unfold listings in E.
  apply list_elem_of_fmap in E as ([ext [m s]] & [= <- <-] & [_ Hin]%list_elem_of_filter).
  pose proof flat_listing_folders as H. rewrite Forall_forall in H.
  exact (H _ Hin).
Qed.

(** Lower-casing the ASCII letters moves neither a separator nor a dot. *)
Lemma lower_chr_sep x : chr_eqb (lower_chr x) path.sep = chr_eqb x path.sep.
Proof.
  destruct (is_ascii x) eqn:E.
  - revert x E. check_ascii.
  - by destruct (non_ascii x E) as (_ & _ & _ & -> & _).
Qed.

Lemma lower_chr_extsep x : chr_eqb (lower_chr x) path.extsep = chr_eqb x path.extsep.
Proof.
  destruct (is_ascii x) eqn:E.
  - revert x E. check_ascii.
  - by destruct (non_ascii x E) as (_ & _ & _ & -> & _).
Qed.

Lemma rfind_lower c s :
  (∀ x, chr_eqb (lower_chr x) c = chr_eqb x c) → rfind c (lower_ascii s) = rfind c s.
Proof.
  intros Hc. induction s as [|x t IH]; simpl; [done|]. by rewrite IH, Hc.
Qed.

Lemma slice_to_lower s i : slice_to (lower_ascii s) i = lower_ascii (slice_to s i).
Proof. unfold slice_to, lower_ascii. by rewrite length_map, firstn_map. Qed.

Lemma slice_from_lower s i : slice_from (lower_ascii s) i = lower_ascii (slice_from s i).
Proof. unfold slice_from, lower_ascii. by rewrite length_map, skipn_map. Qed.

Lemma existsb_not_dot_lower s :
  existsb (λ c, negb (chr_eqb c path.extsep)) (lower_ascii s)
  = existsb (λ c, negb (chr_eqb c path.extsep)) s.
Proof. induction s as [|x t IH]; simpl; [done|]. by rewrite IH, lower_chr_extsep. Qed.

Lemma splitext_lower p :
  path.splitext (lower_ascii p)
  = (lower_ascii (path.splitext p).1, lower_ascii (path.splitext p).2).
Proof.
  unfold path.splitext.
  rewrite !rfind_lower by (apply lower_chr_sep || apply lower_chr_extsep).
  destruct (_ <? _)%Z; [|done].
  rewrite slice_from_lower, !slice_to_lower, slice_from_lower.
  rewrite existsb_not_dot_lower.
  by destruct (existsb _ _).
Qed.

Lemma lower_ascii_idemp s : lower_ascii (lower_ascii s) = lower_ascii s.
Proof.
  unfold lower_ascii. rewrite map_map. apply map_ext. apply lower_chr_idemp.
Qed.

Lemma lower_ascii_is_ascii s :
  Forall (λ c, is_ascii c = true) s → Forall (λ c, is_ascii c = true) (lower_ascii s).
Proof.
  induction 1 as [|c t Hc Ht IH]; [constructor|].
  constructor; [by rewrite lower_chr_ascii|done].
Qed.

(** On ASCII text [str.lower] is the lower-casing of the ASCII letters. *)
Lemma lower_of_ascii `{U : Unicode} s :
  Forall (λ c, is_ascii c = true) s → lower s = lower_ascii s.
Proof. intros H. unfold lower. by rewrite is_ascii_forallb. Qed.

Lemma splitext_ext_sublist p : Forall (λ c, c ∈ p) (path.splitext p).2.
Proof.
  unfold path.splitext. destruct (_ <? _)%Z; [|constructor].
  destruct (existsb _ _); [|constructor]. cbn [snd].
  apply Forall_forall. intros c Hc. unfold slice_from in Hc.
  rewrite <- (take_drop (clamp_index (rfind path.extsep p) (length p)) p).
  apply elem_of_app. by right.
Qed.

Lemma type_folder_name_lower `{U : Unicode} p :
  Forall (λ c, is_ascii c = true) p → type_folder_name (lower_ascii p) = type_folder_name p.
Proof.
  intros Hp.
  assert (Hext : Forall (λ c, is_ascii c = true) (path.splitext p).2).
  { eapply Forall_impl; [apply splitext_ext_sublist|].
    rewrite Forall_forall in Hp. exact Hp. }
  unfold type_folder_name. rewrite splitext_lower. cbn [snd].
  rewrite !lower_of_ascii by (done || by apply lower_ascii_is_ascii).
  by rewrite lower_ascii_idemp.
Qed.

Lemma lower_ascii_ascii_inv s :
  Forall (λ c, is_ascii c = true) (lower_ascii s) → Forall (λ c, is_ascii c = true) s.
Proof.
  unfold lower_ascii. induction s as [|c t IH]; [constructor|].
  simpl. intros [Hc Ht]%Forall_cons. constructor; [by rewrite <- lower_chr_ascii|by apply IH].
Qed.

(** Claim C6 (amended). The folder of a path is decided by the last listing
    of its lower-cased extension in the category table: the bare main
    category when that category has exactly one subcategory (archives,
    fonts, web and system), main/sub otherwise, and [others] for an
    extension that is not listed. Two paths whose extensions have the same
    lower-casing, and so two ASCII paths that differ in letter case only,
    get the same folder. *)
Theorem type_folder_name_classifies (U : Unicode) file_path file_path' :
  lower (path.splitext file_path').2 = lower (path.splitext file_path).2
  ∨ (Forall (λ c, is_ascii c = true) file_path
     ∧ lower_ascii file_path' = lower_ascii file_path) →
  type_folder_name file_path = expected_folder file_path
  ∧ type_folder_name file_path' = type_folder_name file_path
  ∧ single_subcategory_mains = [ $"archives"; $"fonts"; $"web"; $"system" ]
  ∧ Forall (λ entry : str * list (str * list str),
              entry.1 ∈ single_subcategory_mains ↔ length entry.2 = 1%nat) file_categories.
Proof.
  intros Hcase. split; [apply type_folder_name_expected|]. split; [|split].
  - destruct Hcase as [Hext|[Hascii Hcase]].
    + unfold type_folder_name. by rewrite Hext.
    + assert (Hascii' : Forall (λ c, is_ascii c = true) file_path').
      { apply lower_ascii_ascii_inv. rewrite Hcase. by apply lower_ascii_is_ascii. }
      by rewrite <- (type_folder_name_lower file_path'), Hcase, type_folder_name_lower.
  - reflexivity.
  - compute_done.
Qed.

(** [photo.JPG] and [photo.jpg]. *)
Lemma type_folder_name_classifies_witness :
  let U := unicode_model.latin in
  type_folder_name $"/in/photo.jpg" = $"images/raster_images"
  ∧ type_folder_name $"/in/photo.JPG" = type_folder_name $"/in/photo.jpg".
Proof.
  intros U.
  destruct (type_folder_name_classifies U $"/in/photo.jpg" $"/in/photo.JPG") as (H1 & H2 & _).
  - right. split; [compute_done|reflexivity].
  - split; [rewrite H1; vm_compute; reflexivity|exact H2].
Defined.

(** A log file goes to [system], whatever the character database. *)
Lemma type_folder_name_log (U : Unicode) :
  type_folder_name $"/in/build.log" = $"system"
  ∧ type_folder_name $"/in/build.log" ≠ $"documents/plain_text".
Proof. split; compute_done. Qed.

(** Claim C6 as stated fails for an extension listed twice: [.log] is
    listed under [documents/plain_text], a main category with several
    subcategories, and [build.log] does not go to that folder but to
    [system], its last listing. *)
Lemma listed_extension_other_folder :
  ($"documents", $"plain_text") ∈ listings $".log"
  ∧ ¬ has_one_subcategory $"documents"
  ∧ type_folder_name (U := unicode_model.latin) $"/in/build.log" = $"system"
  ∧ type_folder_name (U := unicode_model.latin) $"/in/build.log" ≠ $"documents/plain_text".
Proof.
  split; [compute_done|]. split; [compute_done|]. apply type_folder_name_log.
Qed.

(** One extension of each single-subcategory main, one of a main with
    several subcategories, and unlisted ones. *)
Example type_folder_name_examples (U : Unicode) :
  type_folder_name $"/in/backup.ZIP" = $"archives"
  ∧ type_folder_name $"/in/font.woff2" = $"fonts"
  ∧ type_folder_name $"/in/site.url" = $"web"
  ∧ type_folder_name $"/in/x.tmp" = $"system"
  ∧ type_folder_name $"/in/logo.svg" = $"images/vector_images"
  ∧ type_folder_name $"/in/readme" = $"others"
  ∧ type_folder_name $"/in/a.b/c.xyz" = $"others".
Proof. vm_compute. repeat split. Qed.

(** An extension listed twice is classified by its last listing. *)
Example type_folder_name_listed_twice (U : Unicode) :
  listings $".php" = [ ($"code", $"scripts"); ($"web", $"web_assets") ]
  ∧ type_folder_name $"/in/index.php" = $"web"
  ∧ listings $".log" = [ ($"documents", $"plain_text"); ($"system", $"system_files") ]
  ∧ type_folder_name $"/in/build.log" = $"system"
  ∧ listings $".bak" = [ ($"data", $"databases"); ($"system", $"system_files") ]
  ∧ type_folder_name $"/in/db.bak" = $"system".
Proof. vm_compute. repeat split. Qed.

(** An extension written with the Kelvin sign (U+212A) is lower-cased to
    [.mkv] by the character database. *)
Example type_folder_name_kelvin :
  type_folder_name (U := unicode_model.latin) ($"/in/a.m" ++ [0x212a%N] ++ $"v")
  = $"video/common".
Proof. vm_compute. reflexivity. Qed.

(** ** The executor *)

Section executor.
Context `{os : OS}.

Lemma emit_progress silent log_file message (w : World) :
  w_progress (emit silent log_file message w).1 = w_progress w.
Proof.
  unfold emit. destruct silent; [destruct (truthy log_file)|]; try done.
  by destruct (append_text _ _ _) as [fs' [e|]].
Qed.

(** Without a log file to open, [emit] returns and leaves the file
    system as it is. *)
Lemma emit_quiet silent log_file message (w : World) :
  log_sink silent log_file = None →
  ∃ w' : World, emit silent log_file message w = (w', None)
        ∧ w_fs w' = w_fs w ∧ w_logs w' = w_logs w ∧ w_progress w' = w_progress w
        ∧ w_stdout w' = if silent then w_stdout w else w_stdout w ++ message ++ newline.
Proof.
  unfold log_sink, emit. destruct silent.
  - intros ->. by exists w.
  - intros _. by eexists.
Qed.






Lemma execute_operations_silent_no_log operations dry_run (w : World) :
  let r := execute_operations operations dry_run true None w in
  w_stdout (run_world r) = w_stdout w ∧ w_logs (run_world r) = w_logs w.
Proof.
  revert w. induction operations as [|op rest IH]; intros w; simpl; [done|].
  destruct (perform dry_run op (w_fs w)) as [fs' [message|e]]; simpl; [|done].
  apply (IH {| w_fs := fs'; w_stdout := w_stdout w; w_logs := w_logs w;
               w_progress := S (w_progress w) |}).
Qed.

(** An error of the link is contained: when no directory creation and no
    writing to the log raises, the call returns and every operation gets
    its message. *)
Lemma execute_operations_link_errors_contained operations dry_run silent log_file (w : World) :
  (∀ dir_path fs, (os_makedirs dir_path fs).2 = None) →
  (∀ f text fs, (append_text f text fs).2 = None) →
  let r := execute_operations operations dry_run silent log_file w in
  run_status r = Ok () ∧ length (run_messages r) = length operations.
Proof.
  intros Hdirs Hlog. revert w.
  assert (Hemit : ∀ message (w : World),
            ∃ w' : World, emit silent log_file message w = (w', None)).
  { intros message w. unfold emit. destruct silent; [|by eexists].
    destruct (truthy log_file) as [f|]; [|by eexists].
    specialize (Hlog f (message ++ newline) (w_fs w)).
    destruct (append_text _ _ _) as [fs' [e|]]; [done|by eexists]. }
  induction operations as [|op rest IH]; intros w; cbn [execute_operations]; [done|].
  assert (Hok : ∃ fs' message, perform dry_run op (w_fs w) = (fs', Ok message)).
  { unfold perform. destruct dry_run; [by eexists _, _|].
    specialize (Hdirs (path.dirname (destination op)) (w_fs w)).
    destruct (os_makedirs _ _) as [fs1 [e|]]; [done|].
    destruct (if bool_decide _ then _ else _) as [fs2 [e|]]; by eexists _, _. }
  destruct Hok as (fs' & message & ->).
  match goal with
  | |- context [emit silent log_file message ?w1] => destruct (Hemit message w1) as [w' ->]
  end.
  destruct (IH w') as [Hst Hlen]. cbn [run_status run_messages length].
  by rewrite Hst, Hlen.
Qed.

(** An error of the directory creation is not: it ends the call at that
    operation, before any message for it. *)
Lemma execute_operations_makedirs_error_escapes op rest silent log_file (w : World) fs e :
  os_makedirs (path.dirname (destination op)) (w_fs w) = (fs, Some e) →
  let r := execute_operations (op :: rest) false silent log_file w in
  run_status r = Raise e ∧ run_messages r = []
  ∧ w_stdout (run_world r) = w_stdout w ∧ w_logs (run_world r) = w_logs w.
Proof. intros H. simpl. unfold perform. by rewrite H. Qed.

End executor.




(** Where the messages of a dry run go: to standard output, or to the log
    when [silent] is set and a log file is given. *)
Example dry_run_delivery :
  let w := posix_model.world scenario.blocked in
  let text :=
    $"Dry run: would create hardlink from '/in/a.txt' to '/out/blocker/a.txt'" ++ newline
    ++ $"Dry run: would create hardlink from '/in/b.txt' to '/out/ok/b.txt'" ++ newline in
  w_stdout (run_world (execute_operations scenario.blocked_batch true false None w)) = text
  ∧ w_logs (run_world (execute_operations scenario.blocked_batch true true (Some $"/log") w))
    !! $"/log" = Some text.
Proof. vm_compute. split; reflexivity. Qed.

(** An error of the link is reported and the batch goes on. *)
Example link_error_is_contained :
  let r := execute_operations scenario.missing_batch false false None
             (posix_model.world scenario.blocked) in
  run_status r = Ok ()
  ∧ run_messages r
    = [ $"Error creating hardlink from '/in/missing.txt' to '/out/ok/missing.txt': "
        ++ $"[Errno 2] No such file or directory: "
        ++ $"'/in/missing.txt' -> '/out/ok/missing.txt'";
        $"Created hardlink from '/in/b.txt' to '/out/ok/b.txt'" ]
  ∧ is_Some (w_fs (run_world r) !! $"/out/ok/b.txt").
Proof. vm_compute. repeat split. by eexists. Qed.

(** Claim C1 fails on the code: [os.makedirs] is called outside the [try].
    In this batch the directory of the first destination cannot be created;
    the exception leaves the call, no message is produced, and the second
    operation is never attempted. *)
Theorem makedirs_error_escapes :
  let r := execute_operations scenario.blocked_batch false false None
             (posix_model.world scenario.blocked) in
  run_status r = Raise $"[Errno 17] File exists: '/out/blocker'"
  ∧ run_messages r = []
  ∧ w_stdout (run_world r) = []
  ∧ w_fs (run_world r) !! $"/out/ok/b.txt" = None.
Proof. vm_compute. repeat split. Qed.

Set Warnings "-level-tolerance".

(** ** More on strings and paths *)

Lemma rfind_absent c s : c ∉ s → rfind c s = (-1)%Z.
Proof.
  induction s as [|x t IH]; simpl; [done|]. intros [Hx Ht]%not_elem_of_cons.
  rewrite IH by done. simpl. by rewrite (proj2 (chr_eqb_false x c)) by done.
Qed.

Lemma rfind_present c s : c ∈ s → (0 ≤ rfind c s)%Z.
Proof.
  induction s as [|x t IH]; [by intros ?%elem_of_nil|].
  intros [->|Hin]%elem_of_cons; simpl.
  - destruct (0 <=? rfind x t)%Z eqn:E; [apply Z.leb_le in E; lia|].
    by rewrite (proj2 (chr_eqb_true x x)).
  - apply IH in Hin. rewrite (proj2 (Z.leb_le _ _)) by done. lia.
Qed.

Lemma rfind_app c a b :
  rfind c (a ++ b)
  = if bool_decide (c ∈ b) then (Z.of_nat (length a) + rfind c b)%Z else rfind c a.
Proof.
  induction a as [|x a IH]; simpl.
  - case_bool_decide as Hc; [lia|]. by rewrite rfind_absent.
  - rewrite IH. case_bool_decide as Hc.
    + pose proof (rfind_present c b Hc).
      rewrite (proj2 (Z.leb_le _ _)) by lia. lia.
    + done.
Qed.

Lemma rfind_snoc c a : rfind c (a ++ [c]) = Z.of_nat (length a).
Proof.
  rewrite rfind_app, bool_decide_eq_true_2 by set_solver.
  simpl. rewrite (proj2 (chr_eqb_true c c)) by done. lia.
Qed.

Lemma slice_from_app {A} (a b : list A) : slice_from (a ++ b) (Z.of_nat (length a)) = b.
Proof.
  unfold slice_from. rewrite clamp_index_nonneg, length_app by lia.
  rewrite Nat2Z.id, Nat.min_r by lia. by rewrite drop_app_length.
Qed.

Lemma slice_to_app {A} (a b : list A) : slice_to (a ++ b) (Z.of_nat (length a)) = a.
Proof.
  unfold slice_to. rewrite clamp_index_nonneg, length_app by lia.
  rewrite Nat2Z.id, Nat.min_r by lia. by rewrite take_app_length.
Qed.

Lemma endswith_snoc c q : endswith c (q ++ [c]) = true.
Proof. unfold endswith. rewrite last_snoc. by apply chr_eqb_true. Qed.

Lemma endswith_true c a : endswith c a = true → ∃ q, a = q ++ [c].
Proof.
  unfold endswith. destruct (last a) as [x|] eqn:E; [|done].
  intros ->%chr_eqb_true. apply last_Some in E as [q ->]. by exists q.
Qed.

Lemma join_relative a b :
  startswith path.sep b = false →
  ∃ pre, path.join a b = pre ++ b ∧ dir_prefix pre
         ∧ (pre = a ∨ pre = a ++ [path.sep]).
Proof.
  intros Hb. unfold path.join. rewrite Hb.
  destruct (bool_decide (a = [])) eqn:Ha; simpl.
  - apply bool_decide_eq_true in Ha as ->. exists []. split; [done|]. split; [by left|by left].
  - destruct (endswith path.sep a) eqn:He.
    + exists a. split; [done|]. split; [|by left].
      right. by apply endswith_true.
    + exists (a ++ [path.sep]). split; [by rewrite <- app_assoc|].
      split; [right; by exists a|by right].
Qed.

Lemma rfind_sep_prefix pre n :
  dir_prefix pre → path.sep ∉ n →
  rfind path.sep (pre ++ n) = (Z.of_nat (length pre) - 1)%Z.
Proof.
  intros Hpre Hn. rewrite rfind_app, bool_decide_eq_false_2 by done.
  destruct Hpre as [->|[q ->]]; [done|].
  rewrite rfind_snoc, length_app. simpl. lia.
Qed.

Lemma basename_prefix pre n :
  dir_prefix pre → path.sep ∉ n → path.basename (pre ++ n) = n.
Proof.
  intros Hpre Hn. unfold path.basename. rewrite rfind_sep_prefix by done.
  replace (Z.of_nat (length pre) - 1 + 1)%Z with (Z.of_nat (length pre)) by lia.
  apply slice_from_app.
Qed.

Lemma startswith_not_in c s : c ∉ s → startswith c s = false.
Proof.
  destruct s as [|x t]; [done|]. intros [Hx _]%not_elem_of_cons.
  simpl. apply chr_eqb_false. congruence.
Qed.

Lemma rfind_after c s : c ∉ drop (Z.to_nat (rfind c s + 1)) s.
Proof.
  induction s as [|x t IH]; simpl; [apply not_elem_of_nil|].
  destruct (0 <=? rfind c t)%Z eqn:E.
  - apply Z.leb_le in E.
    replace (Z.to_nat (rfind c t + 1 + 1)) with (S (Z.to_nat (rfind c t + 1))) by lia.
    done.
  - apply Z.leb_gt in E.
    assert (Ht : c ∉ t) by (intros Hin%rfind_present; lia).
    destruct (chr_eqb x c) eqn:Ex; simpl; [done|].
    apply chr_eqb_false in Ex. apply not_elem_of_cons. split; [congruence|done].
Qed.

Lemma basename_no_sep p : path.sep ∉ path.basename p.
Proof.
  unfold path.basename, slice_from.
  pose proof (rfind_bounds path.sep p) as Hb.
  rewrite clamp_index_nonneg by lia.
  rewrite Nat.min_r by lia. apply rfind_after.
Qed.


Lemma rstrip_keep P s x : last s = Some x → P x = false → rstrip P s = s.
Proof.
  intros [q ->]%last_Some Hx. unfold rstrip.
  rewrite rev_app_distr. simpl. rewrite Hx. simpl.
  by rewrite <- (rev_involutive q) at 2.
Qed.

Lemma rstrip_snoc P s c : P c = true → rstrip P (s ++ [c]) = rstrip P s.
Proof. intros Hc. unfold rstrip. rewrite rev_app_distr. simpl. by rewrite Hc. Qed.

Lemma forallb_snoc_false (P : char → bool) q x c :
  P x = false → forallb P ((q ++ [x]) ++ [c]) = false.
Proof.
  intros Hx. rewrite !forallb_app. simpl. rewrite Hx.
  by rewrite andb_false_r.
Qed.

(** The directory of a name joined onto a directory that does not end with
    a separator is that directory. *)
Lemma dirname_join d n x :
  last d = Some x → x ≠ path.sep → path.sep ∉ n → path.dirname (path.join d n) = d.
Proof.
  intros Hlast Hx Hn.
  assert (Hjoin : path.join d n = (d ++ [path.sep]) ++ n).
  { unfold path.join. rewrite startswith_not_in by done.
    rewrite bool_decide_eq_false_2 by (by intros ->).
    unfold endswith. rewrite Hlast, (proj2 (chr_eqb_false _ _)) by done. simpl.
    by rewrite <- app_assoc. }
  rewrite Hjoin. unfold path.dirname.
  rewrite rfind_sep_prefix by (done || (right; by exists d)).
  replace (Z.of_nat (length (d ++ [path.sep])) - 1 + 1)%Z
    with (Z.of_nat (length (d ++ [path.sep]))) by lia.
  rewrite slice_to_app.
  rewrite bool_decide_eq_false_2 by (by destruct d).
  apply last_Some in Hlast as [q ->].
  rewrite forallb_snoc_false by (by apply chr_eqb_false). simpl.
  rewrite rstrip_snoc by (by apply chr_eqb_true).
  apply (rstrip_keep _ _ x); [by rewrite last_snoc|by apply chr_eqb_false].
Qed.



Lemma splitext_joined pre b ext :
  dir_prefix pre → b ≠ [] → path.sep ∉ b → path.extsep ∉ b →
  (ext = [] ∨ ∃ e, ext = path.extsep :: e ∧ (path.extsep ∉ e) ∧ (path.sep ∉ e)) →
  path.splitext (pre ++ b ++ ext) = (pre ++ b, ext).
Proof.
  intros Hpre Hb Hsep Hdot [->|(e & -> & Hedot & Hesep)]; unfold path.splitext.
  - rewrite app_nil_r. rewrite rfind_sep_prefix by done.
    rewrite (rfind_app path.extsep), bool_decide_eq_false_2 by done.
    assert (rfind path.extsep pre ≤ Z.of_nat (length pre) - 1)%Z.
    { pose proof (rfind_bounds path.extsep pre). lia. }
    by rewrite (proj2 (Z.ltb_ge _ _)) by lia.
  - assert (Hn : path.sep ∉ b ++ path.extsep :: e).
    { rewrite elem_of_app, elem_of_cons. intros [?|[?|?]]; done. }
    rewrite rfind_sep_prefix by done.
    rewrite (app_assoc pre b).
    rewrite (rfind_app path.extsep), bool_decide_eq_true_2 by set_solver.
    assert (rfind path.extsep (path.extsep :: e) = 0%Z) as ->.
    { simpl. by rewrite rfind_absent by done. }
    rewrite Z.add_0_r, length_app.
    rewrite (proj2 (Z.ltb_lt _ _)) by lia.
    replace (Z.of_nat (length pre) - 1 + 1)%Z with (Z.of_nat (length pre)) by lia.
    rewrite <- (app_assoc pre b), slice_from_app.
    replace (Z.of_nat (length pre + length b) - Z.of_nat (length pre))%Z
      with (Z.of_nat (length b)) by lia.
    rewrite slice_to_app.
    assert (existsb (λ c, negb (chr_eqb c path.extsep)) b = true) as ->.
    { destruct b as [|x b]; [done|]. simpl.
      apply not_elem_of_cons in Hdot as [Hx _].
      rewrite (proj2 (chr_eqb_false x path.extsep)) by congruence. done. }
    rewrite (app_assoc pre b), <- length_app.
    by rewrite slice_to_app, slice_from_app.
Qed.

(** ** More on the metadata planner *)

Lemma compute_operations_records data_list new_path renamed_files processed_files
    ops renamed_files' processed_files' :
  compute_operations data_list new_path renamed_files processed_files
    = Some (ops, renamed_files', processed_files') →
  source <$> ops = first_occurrences processed_files (file_path <$> data_list)
  ∧ processed_files' = list_to_set (file_path <$> data_list) ∪ processed_files
  ∧ Forall (λ op, ∃ d, d ∈ data_list ∧ planned_from new_path d op) ops.
Proof.
  revert renamed_files processed_files ops.
  induction data_list as [|d rest IH]; intros R P ops; cbn [compute_operations].
  - intros [= <- <- <-]. split; [done|]. split; [set_solver|constructor].
  - rewrite fmap_cons. cbn [first_occurrences]. case_bool_decide as Hd.
    + intros (Hsrc & -> & Hops)%IH. split; [done|]. split; [set_solver|].
      eapply Forall_impl; [exact Hops|]. intros op (d' & ? & ?). exists d'. set_solver.
    + destruct (handle_duplicates _ _ _ _ _ _ _ _) as [[name dest]|] eqn:Hloop; [|done].
      destruct (compute_operations rest _ _ _) as [[[ops0 R0] P0]|] eqn:Hrest; [|done].
      intros [= <- <- <-].
      apply IH in Hrest as (Hsrc & -> & Hops).
      apply (handle_duplicates_result R _ _ _ _ 0%nat) in Hloop as (k & _ & -> & -> & _ & _).
      split; [by rewrite fmap_cons, Hsrc|]. split; [set_solver|].
      constructor.
      * exists d. split; [by left|]. repeat split. by exists k.
      * eapply Forall_impl; [exact Hops|]. intros op (d' & ? & ?). exists d'. set_solver.
Qed.

Lemma compute_operations_processed data_list new_path renamed_files processed_files :
  Forall (λ d, file_path d ∈ processed_files) data_list →
  compute_operations data_list new_path renamed_files processed_files
  = Some ([], renamed_files, processed_files).
Proof.
  induction 1 as [|d rest Hd _ IH]; cbn [compute_operations]; [done|].
  by rewrite bool_decide_eq_true_2.
Qed.





Lemma candidate_name_relative stem p k :
  startswith path.sep stem = false →
  startswith path.sep (candidate_name stem (path.splitext p).2 k) = false.
Proof.
  intros Hstem. destruct k; simpl.
  - by rewrite startswith_plain by apply splitext_ext_startswith.
  - by rewrite startswith_numbered.
Qed.

Lemma join_prefix_of a b : startswith path.sep b = false → a `prefix_of` path.join a b.
Proof.
  intros Hb. destruct (join_relative a b Hb) as (pre & -> & _ & [->| ->]).
  - by apply prefix_app_r.
  - rewrite <- app_assoc. by apply prefix_app_r.
Qed.

(** Property X1. For one record whose source is not yet processed, and for
    any set of allocated destinations, the destination chosen is the first
    of the candidates (the plain name, then the names numbered 1, 2, ...)
    that is not allocated: every candidate before it is allocated. The call
    adds exactly that destination and that source to the two sets. *)
Theorem compute_operations_first_free d new_path renamed_files processed_files :
  file_path d ∉ processed_files →
  let cand := candidate (path.join new_path (foldername d)) (filename d)
                (path.splitext (file_path d)).2 in
  ∃ k op,
    compute_operations [d] new_path renamed_files processed_files
      = Some ([op], {[cand k]} ∪ renamed_files, {[file_path d]} ∪ processed_files)
    ∧ destination op = cand k
    ∧ cand k ∉ renamed_files
    ∧ ∀ i, (i < k)%nat → cand i ∈ renamed_files.
Proof.
  intros Hd cand. cbn [compute_operations].
  rewrite bool_decide_eq_false_2 by done.
  destruct (handle_duplicates_total renamed_files (path.join new_path (foldername d))
              (filename d) (path.splitext (file_path d)).2) as [[name dest] Hloop].
  pose proof Hloop as Hres.
  apply (handle_duplicates_result renamed_files _ _ _ _ 0%nat) in Hres
    as (k & _ & -> & -> & Hfree & Hbelow).
  unfold candidate, candidate_name in Hloop. rewrite Hloop.
  exists k. eexists. split; [done|]. split; [done|]. split; [done|].
  intros i Hi. apply Hbelow. lia.
Qed.

Lemma compute_operations_first_free_witness :
  ∃ k op,
    compute_operations [scenario.report $"/in/d.txt"] $"/out"
      scenario.earlier_allocations scenario.earlier_sources
      = Some ([op], {[candidate $"/out/docs" $"report" $".txt" k]}
                      ∪ scenario.earlier_allocations,
              {[ $"/in/d.txt" ]} ∪ scenario.earlier_sources)
    ∧ destination op = candidate $"/out/docs" $"report" $".txt" k
    ∧ candidate $"/out/docs" $"report" $".txt" k ∉ scenario.earlier_allocations
    ∧ ∀ i, (i < k)%nat → candidate $"/out/docs" $"report" $".txt" i
                          ∈ scenario.earlier_allocations.
Proof.
  apply (compute_operations_first_free (scenario.report $"/in/d.txt") $"/out"
           scenario.earlier_allocations scenario.earlier_sources).
  compute_done.
Defined.

(** Property X2. Planning the same records again with the two sets as the
    first call left them yields no operation and leaves the sets as they
    are: a record whose source was processed is skipped. *)
Theorem compute_operations_replay data_list new_path renamed_files processed_files :
  ∃ ops renamed_files' processed_files',
    compute_operations data_list new_path renamed_files processed_files
      = Some (ops, renamed_files', processed_files')
    ∧ compute_operations data_list new_path renamed_files' processed_files'
      = Some ([], renamed_files', processed_files').
Proof.
  destruct (compute_operations_total data_list new_path renamed_files processed_files)
    as [[[ops R'] P'] E].
  exists ops, R', P'. split; [done|].
  apply compute_operations_records in E as (_ & -> & _).
  apply compute_operations_processed, Forall_forall.
  intros d Hd. apply elem_of_union_l, elem_of_list_to_set, list_elem_of_fmap. by exists d.
Qed.


(** Property X4. Every operation of the metadata planner is a hard link
    whose destination is [new_path/folder_name/new_file_name] for the folder
    and the name recorded in the operation itself. *)
Theorem compute_operations_fields data_list new_path renamed_files processed_files :
  ∃ ops renamed_files' processed_files',
    compute_operations data_list new_path renamed_files processed_files
      = Some (ops, renamed_files', processed_files')
    ∧ Forall (λ op, link_type op = hardlink
                    ∧ ∃ folder name, folder_name op = Some folder
                        ∧ new_file_name op = Some name
                        ∧ destination op
                          = path.join (path.join new_path folder) name) ops.
Proof.
  destruct (compute_operations_total data_list new_path renamed_files processed_files)
    as [[[ops R'] P'] E].
  exists ops, R', P'. split; [done|].
  apply compute_operations_records in E as (_ & _ & Hops).
  eapply Forall_impl; [exact Hops|].
  intros op (d & Hd & _ & Hlink & Hfolder & k & Hname & Hdest).
  split; [done|]. by eexists _, _.
Qed.



(** With an empty stem the destination is a dot file without extension. *)
Example compute_operations_empty_stem :
  (λ r : list Operation * gset str * gset str,
     (λ op, (destination op, (path.splitext (destination op)).2)) <$> r.1.1)
    <$> compute_operations
          [ {| file_path := $"/in/a.txt"; foldername := $"docs"; filename := [] |} ]
          $"/out" ∅ ∅
  = Some [ ($"/out/docs/.txt", []) ].
Proof. vm_compute. reflexivity. Qed.

(** Property X6. When no folder name and no file name of the records starts
    with a separator, every destination starts with [new_path]. *)
Theorem compute_operations_under_new_path
    data_list new_path renamed_files processed_files :
  Forall (λ d, startswith path.sep (foldername d) = false
               ∧ startswith path.sep (filename d) = false) data_list →
  ∃ ops renamed_files' processed_files',
    compute_operations data_list new_path renamed_files processed_files
      = Some (ops, renamed_files', processed_files')
    ∧ Forall (λ op, new_path `prefix_of` destination op) ops.
Proof.
  intros Hrel.
  destruct (compute_operations_total data_list new_path renamed_files processed_files)
    as [[[ops R'] P'] E].
  exists ops, R', P'. split; [done|].
  apply compute_operations_records in E as (_ & _ & Hops).
  eapply Forall_impl; [exact Hops|].
  intros op (d & Hd & _ & _ & _ & k & _ & ->).
  rewrite Forall_forall in Hrel. destruct (Hrel d Hd) as [Hfolder Hstem].
  unfold candidate.
  etrans; [exact (join_prefix_of new_path (foldername d) Hfolder)|].
  by apply join_prefix_of, candidate_name_relative.
Qed.

Lemma compute_operations_under_new_path_witness :
  ∃ ops renamed_files' processed_files',
    compute_operations [scenario.report $"/in/a.txt"; scenario.report $"/in/b.txt"]
      $"/out" ∅ ∅
      = Some (ops, renamed_files', processed_files')
    ∧ Forall (λ op, $"/out" `prefix_of` destination op) ops.
Proof.
  apply compute_operations_under_new_path. repeat constructor.
Defined.

(** An absolute folder name takes the destination out of [new_path]. *)
Example compute_operations_absolute_folder :
  (λ r : list Operation * gset str * gset str, destination <$> r.1.1)
    <$> compute_operations
          [ {| file_path := $"/in/a.txt"; foldername := $"/etc"; filename := $"passwd" |} ]
          $"/out" ∅ ∅
  = Some [ $"/etc/passwd.txt" ].
Proof. vm_compute. reflexivity. Qed.

(** ** More on the type planner and the date planner *)

Lemma flat_listing_relative :
  Forall (λ e : str * (str * str),
            relative_folder (if bool_decide (e.2.1 ∈ single_subcategory_mains)
                             then e.2.1 else path.join e.2.1 e.2.2)) flat_listing.
Proof. unfold relative_folder. compute_done. Qed.

Lemma type_folder_name_relative `{U : Unicode} p : relative_folder (type_folder_name p).
Proof.
  unfold type_folder_name. rewrite extension_to_category_lookup.
  destruct (last _) as [[main sub]|] eqn:E; [|by repeat split].
  apply last_Some_elem_of in E. unfold listings in E.
  apply list_elem_of_fmap in E as ([ext [m s]] & [= <- <-] & [_ Hin]%list_elem_of_filter).
  pose proof flat_listing_relative as H. rewrite Forall_forall in H.
  exact (H _ Hin).
Qed.

Lemma endswith_false_last c s :
  s ≠ [] → endswith c s = false → ∃ x, last s = Some x ∧ x ≠ c.
Proof.
  intros Hs. unfold endswith. destruct (last s) as [x|] eqn:E.
  - intros ?%chr_eqb_false. by exists x.
  - by apply last_None in E.
Qed.

Lemma last_app_ne {A} (a b : list A) : b ≠ [] → last (a ++ b) = last b.
Proof.
  intros Hb. destruct b as [|x b _] using rev_ind; [done|].
  by rewrite app_assoc, !last_snoc.
Qed.

(** The directory of a folder under the output path is not empty and does
    not end with a separator. *)
Lemma type_dir_last `{U : Unicode} out p :
  ∃ x, last (path.join out (type_folder_name p)) = Some x ∧ x ≠ path.sep.
Proof.
  destruct (type_folder_name_relative p) as (Hstart & Hend & Hne).
  destruct (endswith_false_last _ _ Hne Hend) as (x & Hlast & Hx).
  exists x. split; [|done].
  destruct (join_relative out (type_folder_name p) Hstart) as (pre & -> & _).
  by rewrite last_app_ne.
Qed.

Lemma type_destination_parts `{U : Unicode} out p :
  path.basename (type_destination out p) = path.basename p
  ∧ path.dirname (type_destination out p) = path.join out (type_folder_name p)
  ∧ out `prefix_of` type_destination out p.
Proof.
  pose proof (basename_no_sep p) as Hbase.
  destruct (type_dir_last out p) as (x & Hlast & Hx).
  destruct (type_folder_name_relative p) as (Hstart & _ & _).
  unfold type_destination. split; [|split].
  - destruct (join_relative (path.join out (type_folder_name p)) (path.basename p))
      as (pre & -> & Hpre & _); [by apply startswith_not_in|].
    by apply basename_prefix.
  - by apply (dirname_join _ _ x).
  - etrans; [exact (join_prefix_of out _ Hstart)|].
    by apply join_prefix_of, startswith_not_in.
Qed.

Lemma process_files_by_type_ops `{U : Unicode} file_paths output_path :
  Forall (λ op, destination op = type_destination output_path (source op)
                ∧ link_type op = hardlink)
    (process_files_by_type file_paths output_path).
Proof.
  induction file_paths as [|p rest IH]; cbn [process_files_by_type]; [constructor|].
  destruct (is_hidden p); [done|]. by constructor.
Qed.

(** Property X7. Every operation of the type planner keeps the base name of
    its source, has the directory [output_path/folder] of its source's
    folder as the directory of its destination (the one the executor
    creates), and has a destination that starts with [output_path]. *)
Theorem process_files_by_type_keeps_name (U : Unicode) file_paths output_path :
  Forall (λ op,
            path.basename (destination op) = path.basename (source op)
            ∧ path.dirname (destination op)
              = path.join output_path (type_folder_name (source op))
            ∧ output_path `prefix_of` destination op)
    (process_files_by_type file_paths output_path).
Proof.
  eapply Forall_impl; [apply process_files_by_type_ops|].
  intros op [-> _]. apply type_destination_parts.
Qed.

(** Property X8. Two operations of one type plan have the same destination
    exactly when their sources have the same base name and the same
    folder. *)
Theorem process_files_by_type_same_destination (U : Unicode) file_paths output_path op1 op2 :
  op1 ∈ process_files_by_type file_paths output_path →
  op2 ∈ process_files_by_type file_paths output_path →
  destination op1 = destination op2
  ↔ path.basename (source op1) = path.basename (source op2)
    ∧ type_folder_name (source op1) = type_folder_name (source op2).
Proof.
  pose proof (process_files_by_type_ops file_paths output_path) as H.
  rewrite Forall_forall in H.
  intros [-> _]%H [-> _]%H. split.
  - intros E.
    destruct (type_destination_parts output_path (source op1)) as (Hb1 & Hd1 & _).
    destruct (type_destination_parts output_path (source op2)) as (Hb2 & Hd2 & _).
    split; [by rewrite <- Hb1, <- Hb2, E|].
    assert (Hdir : path.join output_path (type_folder_name (source op1))
                   = path.join output_path (type_folder_name (source op2)))
      by (by rewrite <- Hd1, <- Hd2, E).
    apply join_inj in Hdir; [done|].
    destruct (type_folder_name_relative (source op1)) as (-> & _).
    by destruct (type_folder_name_relative (source op2)) as (-> & _).
  - intros [Hb Hf]. unfold type_destination. by rewrite Hb, Hf.
Qed.

Lemma process_files_by_type_same_destination_witness :
  let U := unicode_model.latin in
  let ops := process_files_by_type [ $"/a/x.txt"; $"/b/x.TXT"; $"/b/x.txt" ] $"/out" in
  let op1 := scenario.plan $"/a/x.txt" $"/out/documents/plain_text/x.txt" in
  let op2 := scenario.plan $"/b/x.txt" $"/out/documents/plain_text/x.txt" in
  op1 ∈ ops ∧ op2 ∈ ops
  ∧ (destination op1 = destination op2
     ↔ path.basename (source op1) = path.basename (source op2)
       ∧ type_folder_name (source op1) = type_folder_name (source op2)).
Proof.
  intros U. cbv zeta.
  assert (H1 : scenario.plan $"/a/x.txt" $"/out/documents/plain_text/x.txt"
               ∈ process_files_by_type [ $"/a/x.txt"; $"/b/x.TXT"; $"/b/x.txt" ] $"/out").
  { apply (list_elem_of_lookup_2 _ 0%nat). vm_compute. reflexivity. }
  assert (H2 : scenario.plan $"/b/x.txt" $"/out/documents/plain_text/x.txt"
               ∈ process_files_by_type [ $"/a/x.txt"; $"/b/x.TXT"; $"/b/x.txt" ] $"/out").
  { apply (list_elem_of_lookup_2 _ 2%nat). vm_compute. reflexivity. }
  split; [exact H1|]. split; [exact H2|].
  exact (process_files_by_type_same_destination U _ _ _ _ H1 H2).
Defined.

(** Property X9. When the modification time of every source can be read
    and is a date, the date planner returns one hard-link operation per
    source, in order and without skipping any (hidden files included), each
    keeping the base name of its source. A modification time that can be
    read but is not a date makes the planner raise. *)
Theorem process_files_by_date_plans_all `{os : OS} (fs : FS) file_paths output_path :
  Forall (dated fs) file_paths →
  ∃ ops, process_files_by_date fs file_paths output_path = Ok ops
         ∧ source <$> ops = file_paths
         ∧ Forall (λ op, path.basename (destination op) = path.basename (source op)
                         ∧ link_type op = hardlink) ops.
Proof.
  induction 1 as [|p rest (t & d & Ht & Hd) _ (ops & IH & Hsrc & Hops)];
    cbn [process_files_by_date]; [by exists []|].
  rewrite Ht, Hd, IH. eexists. split; [done|]. split; [by rewrite fmap_cons, Hsrc|].
  constructor; [|done]. split; [|done]. cbn [destination source].
  pose proof (basename_no_sep p) as Hbase.
  destruct (join_relative
              (path.join (path.join output_path (strftime_Y d)) (strftime_B d))
              (path.basename p)) as (pre & -> & Hpre & _); [by apply startswith_not_in|].
  by apply basename_prefix.
Qed.

Lemma process_files_by_date_plans_all_witness :
  ∃ ops, process_files_by_date (os := posix_model.os) scenario.two_files
           [ $"/in/a.txt"; $"/in/b.txt" ] $"/out" = Ok ops
         ∧ source <$> ops = [ $"/in/a.txt"; $"/in/b.txt" ]
         ∧ Forall (λ op, path.basename (destination op) = path.basename (source op)
                         ∧ link_type op = hardlink) ops.
Proof.
  apply (process_files_by_date_plans_all (os := posix_model.os)).
  repeat constructor; eexists _, _; vm_compute; split; reflexivity.
Defined.

(** A source whose modification time is not a date ends the planning, the
    readable source before it included. *)
Example process_files_by_date_undated_source :
  process_files_by_date (os := posix_model.os) scenario.undated
    [ $"/in/a.txt"; $"/in/old.txt" ] $"/out"
  = Raise $"year 0 is out of range".
Proof. vm_compute. reflexivity. Qed.

Lemma flat_listing_extensions `{U : Unicode} :
  Forall (λ e : str * (str * str),
            lower e.1 = e.1
            ∧ (∃ x, e.1 = path.extsep :: x ∧ (path.extsep ∉ x) ∧ (path.sep ∉ x))
            ∧ is_Some (last (listings e.1))) flat_listing.
Proof.
  apply Forall_forall. intros e He.
  assert (H : Forall (λ e : str * (str * str),
            lower e.1 = e.1
            ∧ head e.1 = Some path.extsep
            ∧ path.extsep ∉ tail e.1 ∧ path.sep ∉ tail e.1
            ∧ is_Some (last (listings e.1))) flat_listing) by compute_done.
  rewrite Forall_forall in H. destruct (H e He) as (? & Hh & ? & ? & ?).
  split; [done|]. split; [|done]. exists (tail e.1).
  destruct e.1; [done|]. simpl in *. by injection Hh as ->.
Qed.

(** Property X10. A file whose last component is a name without dot
    followed by an extension listed in the category table is classified by
    that extension and never put in [others]: every key of the table is a
    lowercase extension that [splitext] can return. *)
Theorem listed_extension_recognised (U : Unicode) pre b e :
  dir_prefix pre → b ≠ [] → path.sep ∉ b → path.extsep ∉ b → e ∈ flat_listing →
  (path.splitext (pre ++ b ++ e.1)).2 = e.1
  ∧ extension_to_category !! lower e.1 = last (listings e.1)
  ∧ is_Some (last (listings e.1))
  ∧ type_folder_name (pre ++ b ++ e.1) ≠ $"others".
Proof.
  intros Hpre Hb Hsep Hdot He.
  pose proof flat_listing_extensions as H. rewrite Forall_forall in H.
  destruct (H e He) as (Hlow & Hshape & Hsome).
  assert (Hext : path.splitext (pre ++ b ++ e.1) = (pre ++ b, e.1))
    by (apply splitext_joined; done || by right).
  split; [by rewrite Hext|]. split; [by rewrite Hlow, extension_to_category_lookup|].
  split; [done|].
  unfold type_folder_name. rewrite Hext.
  cbn [snd]. rewrite Hlow, extension_to_category_lookup.
  destruct (last (listings e.1)) as [[main sub]|] eqn:E; [|by destruct Hsome].
  apply last_Some_elem_of in E. unfold listings in E.
  apply list_elem_of_fmap in E as ([ext [m s]] & [= <- <-] & [_ Hin]%list_elem_of_filter).
  assert (Hno : Forall (λ e : str * (str * str),
            (if bool_decide (e.2.1 ∈ single_subcategory_mains)
             then e.2.1 else path.join e.2.1 e.2.2) ≠ $"others") flat_listing)
    by compute_done.
  rewrite Forall_forall in Hno. exact (Hno _ Hin).
Qed.

Lemma listed_extension_recognised_witness :
  let U := unicode_model.latin in
  (path.splitext $"/in/holiday.heic").2 = $".heic"
  ∧ extension_to_category !! lower $".heic" = last (listings $".heic")
  ∧ is_Some (last (listings $".heic"))
  ∧ type_folder_name $"/in/holiday.heic" ≠ $"others".
Proof.
  apply (listed_extension_recognised unicode_model.latin $"/in/" $"holiday"
           ($".heic", ($"images", $"raster_images"))).
  - right. by exists $"/in".
  - done.
  - compute_done.
  - compute_done.
  - compute_done.
Defined.

(** ** More on the executor *)

Section executor_more.
Context `{os : OS}.

Lemma world_eta (w : World) :
  {| w_fs := w_fs w; w_stdout := w_stdout w; w_logs := w_logs w;
     w_progress := w_progress w |} = w.
Proof. by destruct w. Qed.

Lemma run_eta (r : Run) :
  {| run_world := run_world r; run_messages := run_messages r;
     run_status := run_status r |} = r.
Proof. by destruct r. Qed.

(** Property X11. Executing a batch in two parts is executing it whole: the
    second part starts in the world the first part left, the messages are
    those of both parts in order, and an exception of the first part ends
    the batch there. *)
Theorem execute_operations_app ops1 ops2 dry_run silent log_file (w : World) :
  execute_operations (ops1 ++ ops2) dry_run silent log_file w
  = then_run (execute_operations ops1 dry_run silent log_file w)
      (execute_operations ops2 dry_run silent log_file).
Proof.
  revert w. induction ops1 as [|op ops1 IH]; intros w.
  - unfold then_run. simpl. by rewrite run_eta.
  - cbn [app execute_operations].
    destruct (perform dry_run op (w_fs w)) as [fs' [message|e]]; [|done].
    destruct (emit silent log_file message _) as [w2 [e|]]; [done|].
    rewrite IH. unfold then_run. cbn [run_status run_world run_messages].
    destruct (run_status (execute_operations ops1 dry_run silent log_file _)) eqn:E;
      cbn [run_status run_world run_messages]; rewrite ?E; reflexivity.
Qed.

Lemma perform_message dry_run op (fs fs' : FS) message :
  perform dry_run op fs = (fs', Ok message) → is_message_of dry_run op message.
Proof.
  unfold perform, is_message_of. destruct dry_run.
  - by intros [= _ <-].
  - destruct (os_makedirs _ _) as [fs1 [e|]]; [done|].
    destruct (if bool_decide _ then _ else _) as [fs2 [e|]];
      intros [= _ <-]; [right; by exists e|by left].
Qed.

Lemma execute_operations_accounting operations dry_run silent log_file (w : World) :
  let r := execute_operations operations dry_run silent log_file w in
  w_progress (run_world r) = (w_progress w + length (run_messages r))%nat
  ∧ (length (run_messages r) ≤ length operations)%nat
  ∧ (run_status r = Ok () → length (run_messages r) = length operations)
  ∧ (log_sink silent log_file = None →
     length (run_messages r) = length operations → run_status r = Ok ())
  ∧ Forall2 (is_message_of dry_run) (take (length (run_messages r)) operations)
      (run_messages r).
Proof.
  revert w. induction operations as [|op rest IH]; intros w; cbn [execute_operations].
  - simpl. repeat split; (lia || constructor).
  - destruct (perform dry_run op (w_fs w)) as [fs' [message|e]] eqn:Hp.
    + apply perform_message in Hp.
      match goal with
      | |- context [emit silent log_file message ?w1] =>
          pose proof (emit_progress silent log_file message w1) as Hpr1;
          pose proof (emit_quiet silent log_file message w1) as Hquiet;
          destruct (emit silent log_file message w1) as [w2 [e|]] eqn:He
      end; cbn [fst w_progress] in Hpr1.
      * cbn [run_world run_messages run_status length take].
        split; [lia|]. split; [lia|]. split; [done|].
        split; [intros Hq; by destruct (Hquiet Hq) as (w' & [=] & _)|].
        by repeat constructor.
      * destruct (IH w2) as (Hpr & Hlen & Hst & Hall & Hmsg).
        cbn [run_world run_messages run_status length take].
        split; [lia|]. split; [lia|]. split; [intros ?; by rewrite Hst|].
        split; [intros Hq Hl; apply Hall; [done|lia]|].
        by constructor.
    + simpl. repeat split; try (lia || done || constructor).
Qed.


(** The worker's loop is the batch call, one operation at a time. *)
Lemma execute_each_batch percent operations i total_ops (w : World) :
  let r := execute_operations operations false true None w in
  execute_each percent operations i total_ops w
  = (run_world r,
     (λ j, progress_signal (percent j total_ops)) <$> seq (S i) (length (run_messages r)),
     match run_status r with Ok _ => None | Raise e => Some e end).
Proof.
  revert i w. induction operations as [|op rest IH]; intros i w; [done|].
  cbn [execute_each execute_operations].
  destruct (perform false op (w_fs w)) as [fs' [message|e]]; [|done].
  cbn [run_status run_world emit truthy run_messages length seq].
  rewrite IH. cbv zeta. rewrite fmap_cons. done.
Qed.

End executor_more.



(** With a log file that cannot be opened, the call raises although its
    one operation got its message. *)
Example execute_operations_log_error :
  let r := execute_operations [ scenario.plan $"/in/a.txt" $"/out/ok/a.txt" ] false true
             (Some $"/nowhere/run.log") (posix_model.world scenario.blocked) in
  run_status r = Raise $"[Errno 2] No such file or directory: '/nowhere/run.log'"
  ∧ run_messages r = [ $"Created hardlink from '/in/a.txt' to '/out/ok/a.txt'" ]
  ∧ w_logs (run_world r) = ∅
  ∧ is_Some (w_fs (run_world r) !! $"/out/ok/a.txt").
Proof. vm_compute. repeat split. by eexists. Qed.

(** Property X13. The messages are those of a prefix of the operations, in
    the order of the list: the one description of a dry run, or else the
    report of the link created or of the error of the link. *)
Theorem execute_operations_messages_in_order (os : OS) operations dry_run silent log_file
    (w : World) :
  let r := execute_operations operations dry_run silent log_file w in
  Forall2 (is_message_of dry_run) (take (length (run_messages r)) operations)
    (run_messages r).
Proof.
  by destruct (execute_operations_accounting operations dry_run silent log_file w)
    as (_ & _ & _ & _ & ?).
Qed.


(** Property X15. The execute task of the worker, which calls the executor
    once per operation, leaves the world the single batch call (not dry,
    silent, no log) leaves: it emits one progress signal per operation that
    got a message, then either the completion status or the error of the
    exception that ended the batch, and in both cases an empty result;
    nothing is printed or logged, error messages of links included. *)
Theorem run_execute_task_is_batch (U : Unicode) (os : OS) percent operations (w : World) :
  let r := execute_operations operations false true None w in
  run percent (execute_task operations) w
  = (run_world r,
     status_signal $"Executing file operations..."
       :: execute_signals percent (length operations) r)
  ∧ w_stdout (run_world r) = w_stdout w
  ∧ w_logs (run_world r) = w_logs w.
Proof.
  cbv zeta. split; [|apply execute_operations_silent_no_log].
  unfold run, execute_signals.
  rewrite (execute_each_batch percent operations 0 (length operations) w). cbv zeta.
  by destruct (run_status _).
Qed.

(** A failed link leaves no trace in what the worker emits. *)
Example run_execute_task_link_error :
  let percent := λ i n : nat, (Z.of_nat i * 100 / Z.of_nat n)%Z in
  (run (U := unicode_model.latin) percent (execute_task scenario.missing_batch)
     (posix_model.world scenario.blocked)).2
  = [ status_signal $"Executing file operations..."; progress_signal 50;
      progress_signal 100; status_signal $"File operations completed.";
      finished_signal [] ].
Proof. vm_compute. reflexivity. Qed.

(** A failed directory creation ends the task; the later operation is not
    attempted. *)
Example run_execute_task_makedirs_error :
  let percent := λ i n : nat, (Z.of_nat i * 100 / Z.of_nat n)%Z in
  let out := run (U := unicode_model.latin) percent (execute_task scenario.blocked_batch)
               (posix_model.world scenario.blocked) in
  out.2 = [ status_signal $"Executing file operations...";
            status_signal $"Error: [Errno 17] File exists: '/out/blocker'";
            finished_signal [] ]
  ∧ w_fs out.1 !! $"/out/ok/b.txt" = None.
Proof. vm_compute. split; reflexivity. Qed.

Lemma process_files_by_date_some_raise `{os : OS} (fs : FS) file_paths output_path :
  Exists (λ p, ∃ e, os_getmtime p fs = Raise e) file_paths →
  ∃ e, process_files_by_date fs file_paths output_path = Raise e.
Proof.
  induction file_paths as [|p rest IH]; intros Hex; [by apply Exists_nil in Hex|].
  cbn [process_files_by_date].
  destruct (os_getmtime p fs) as [t|e] eqn:Hp; [|by exists e].
  destruct (fromtimestamp t) as [d|e]; [|by exists e].
  apply Exists_cons in Hex as [[e He]|Hex]; [congruence|].
  destruct (IH Hex) as [e ->]. by exists e.
Qed.

(** Property X16. When the modification time of some source cannot be read,
    the by-date task of the worker reports the exception as an [Error:]
    status and delivers an empty list of operations; the world is left as
    it is. *)
Theorem run_process_by_date_reports_error (U : Unicode) (os : OS) percent file_paths
    output_path (w : World) :
  Exists (λ p, ∃ e, os_getmtime p (w_fs w) = Raise e) file_paths →
  ∃ e, run percent (process_by_date file_paths output_path) w
       = (w, [ status_signal $"Processing files by date...";
               status_signal ($"Error: " ++ e); finished_signal [] ]).
Proof.
  intros [e He]%(process_files_by_date_some_raise _ _ output_path).
  exists e. unfold run. by rewrite He.
Qed.

Lemma run_process_by_date_reports_error_witness :
  ∃ e, run (U := unicode_model.latin) (λ _ _, 0%Z)
         (process_by_date [ $"/in/a.txt"; $"/in/missing.txt" ] $"/out")
         (posix_model.world scenario.two_files)
       = (posix_model.world scenario.two_files,
          [ status_signal $"Processing files by date...";
            status_signal ($"Error: " ++ e); finished_signal [] ]).
Proof.
  apply (run_process_by_date_reports_error unicode_model.latin posix_model.os).
  apply Exists_cons_tl, Exists_cons_hd. eexists. vm_compute. reflexivity.
Defined.

(** ** More on the sanitizer *)

Lemma adjacent_underscores_take s k :
  adjacent_underscores s = false → adjacent_underscores (take k s) = false.
Proof.
  revert k. induction s as [|c t IH]; intros k; [by rewrite take_nil|].
  destruct k as [|k]; [done|]. cbn [take adjacent_underscores].
  intros [H1 H2]%orb_false_elim. rewrite (IH k H2), orb_false_r.
  apply andb_false_iff in H1 as [->|H1]; [done|].
  destruct t as [|x t]; destruct k; simpl in *; rewrite ?H1, ?andb_false_r; done.
Qed.

Lemma startswith_take c s k : startswith c s = false → startswith c (take k s) = false.
Proof. destruct s, k; simpl; done. Qed.

Lemma adjacent_underscores_token w t :
  code "_" ∉ w → w ≠ [] → startswith (code "_") t = false → adjacent_underscores t = false →
  adjacent_underscores (w ++ code "_" :: t) = false
  ∧ startswith (code "_") (w ++ code "_" :: t) = false.
Proof.
  intros Hw Hne Ht Hadj. split.
  - clear Hne. induction w as [|c w IH]; simpl.
    + by rewrite Ht, Hadj.
    + apply not_elem_of_cons in Hw as [Hc Hw].
      rewrite (proj2 (chr_eqb_false c (code "_"))) by congruence. simpl. by apply IH.
  - destruct w as [|c w]; [done|]. apply not_elem_of_cons in Hw as [Hc _].
    simpl. apply chr_eqb_false. congruence.
Qed.

Lemma adjacent_underscores_none w :
  code "_" ∉ w → adjacent_underscores w = false ∧ startswith (code "_") w = false.
Proof.
  intros Hw. split; [|by apply startswith_not_in].
  induction w as [|c w IH]; [done|]. apply not_elem_of_cons in Hw as [Hc Hw].
  simpl. rewrite (proj2 (chr_eqb_false c (code "_"))) by congruence. simpl. by apply IH.
Qed.

Lemma str_join_underscores ws :
  Forall (λ w : str, w ≠ [] ∧ code "_" ∉ w) ws →
  adjacent_underscores (str_join (code "_") ws) = false
  ∧ startswith (code "_") (str_join (code "_") ws) = false.
Proof.
  induction 1 as [|w rest [Hne Hw] Hrest [IH1 IH2]]; [done|].
  cbn [str_join]. destruct rest as [|w2 rest]; [by apply adjacent_underscores_none|].
  by apply adjacent_underscores_token.
Qed.

Section underscores.
Context {U : Unicode}.
Variables (name : str) (max_length max_words : Z).

Let sanitized : str :=
  strip (fun c => chr_eqb c (code "_"))
    (lower (collapse false (strip is_space
       (remove_non_word (remove_stop_words (path.splitext name).1))))).
Let limited_words : list str :=
  slice_to (filter (fun w : str => w ≠ []) (split (code "_") sanitized)) max_words.

Lemma limited_words_tokens : Forall (λ w : str, w ≠ [] ∧ code "_" ∉ w) limited_words.
Proof.
  apply Forall_take, Forall_forall.
  intros w [Hne Hw]%list_elem_of_filter. split; [done|].
  pose proof (split_no_sep (code "_") sanitized) as H. rewrite Forall_forall in H.
  by apply H.
Qed.

Lemma sanitize_filename_no_underscore_run :
  let r := sanitize_filename name max_length max_words in
  startswith (code "_") r = false ∧ adjacent_underscores r = false.
Proof.
  cbv zeta. rewrite sanitize_filename_unfold. fold sanitized. fold limited_words.
  case_bool_decide; [done|].
  destruct (str_join_underscores limited_words limited_words_tokens) as [H1 H2].
  split; [by apply startswith_take|by apply adjacent_underscores_take].
Qed.
End underscores.

(** Property X17. Whatever the input and the limits, the sanitized name does
    not start with an underscore and has no two underscores in a row. *)
Theorem sanitize_filename_underscores (U : Unicode) name max_length max_words :
  let r := sanitize_filename name max_length max_words in
  startswith (code "_") r = false ∧ adjacent_underscores r = false.
Proof. apply sanitize_filename_no_underscore_run. Qed.

Lemma token_chr_facts `{U : Unicode} c :
  token_chr c = true →
  is_ascii c = true ∧ is_word c = true ∧ is_space c = false
  ∧ is_space_or_underscore c = false
  ∧ lower_chr c = c ∧ c ≠ code "_" ∧ c ≠ path.extsep.
Proof.
  intros H. pose proof (token_chr_ascii c H) as E. revert c E H. check_ascii.
Qed.

Lemma splitext_no_dot p : path.extsep ∉ p → path.splitext p = (p, []).
Proof.
  intros H. unfold path.splitext. rewrite (rfind_absent path.extsep) by done.
  pose proof (rfind_bounds path.sep p).
  by rewrite (proj2 (Z.ltb_ge _ _)) by lia.
Qed.

(** The characters of a clean name and its two ends. *)
Lemma clean_name_chars ws :
  ws ≠ [] → Forall clean_token ws →
  let name := str_join (code "_") ws in
  Forall (λ c, token_chr c = true ∨ c = code "_") name
  ∧ (∃ c, head name = Some c ∧ token_chr c = true)
  ∧ (∃ c, last name = Some c ∧ token_chr c = true).
Proof.
  intros Hne Hws. induction Hws as [|w rest [Hw Hchars] Hrest IH]; [done|].
  cbn [str_join]. cbv zeta.
  assert (Hhead : ∃ c, head w = Some c ∧ token_chr c = true).
  { destruct w as [|c w]; [done|]. apply Forall_cons in Hchars as [? _]. by exists c. }
  assert (Hlast : ∃ c, last w = Some c ∧ token_chr c = true).
  { destruct (last w) as [c|] eqn:E; [|by apply last_None in E].
    exists c. split; [done|]. rewrite Forall_forall in Hchars.
    by apply Hchars, last_Some_elem_of. }
  assert (Hall : Forall (λ c, token_chr c = true ∨ c = code "_") w).
  { eapply Forall_impl; [exact Hchars|]. by left. }
  destruct rest as [|w2 rest]; [done|].
  destruct (IH ltac:(done)) as (Hc & _ & Hl).
  split; [|split].
  - apply Forall_app. split; [done|]. constructor; [by right|done].
  - destruct Hhead as (c & Hc' & ?). exists c. split; [|done]. by destruct w.
  - destruct Hl as (c & Hc' & ?). exists c. split; [|done].
    rewrite last_app_ne by done.
    destruct (str_join (code "_") (w2 :: rest)) as [|x J]; [done|]. exact Hc'.
Qed.

Lemma filter_all {A} (P : A → Prop) `{∀ x, Decision (P x)} (l : list A) :
  Forall P l → filter P l = l.
Proof.
  induction 1 as [|x l Hx Hl IH]; [done|]. by rewrite filter_cons_True, IH.
Qed.

Lemma lstrip_keep P c t : P c = false → lstrip P (c :: t) = c :: t.
Proof. intros H. simpl. by rewrite H. Qed.

Lemma strip_keep P s x y :
  head s = Some x → last s = Some y → P x = false → P y = false → strip P s = s.
Proof.
  intros Hx Hy Px Py. unfold strip. destruct s as [|c t]; [done|].
  injection Hx as ->. rewrite lstrip_keep by done. by apply (rstrip_keep _ _ y).
Qed.

Lemma take_all_Z {A} (l : list A) (i : Z) :
  (Z.of_nat (length l) ≤ i)%Z → slice_to l i = l.
Proof.
  intros H. unfold slice_to. rewrite clamp_index_nonneg by lia.
  apply take_ge. lia.
Qed.

Lemma token_chr_lower c : token_chr c = true → lower_chr c = c.
Proof.
  intros H. pose proof (token_chr_ascii c H) as E. revert c E H. check_ascii.
Qed.

Lemma lower_ascii_clean s :
  Forall (λ c, token_chr c = true ∨ c = code "_") s → lower_ascii s = s.
Proof.
  unfold lower_ascii. induction 1 as [|c t Hc Ht IH]; [done|]. simpl. rewrite IH. f_equal.
  destruct Hc as [Hc| ->]; [by apply token_chr_lower|done].
Qed.

Lemma clean_is_ascii s :
  Forall (λ c, token_chr c = true ∨ c = code "_") s → Forall (λ c, is_ascii c = true) s.
Proof.
  intros H. eapply Forall_impl; [exact H|]. intros c [Hc| ->]; [|done].
  by apply token_chr_ascii.
Qed.

Lemma stop_words_lower : Forall (λ a : str, lower_ascii a = a) stop_words.
Proof. compute_done. Qed.

Section clean_names.
Context {U : Unicode}.

Lemma remove_non_word_words s :
  Forall (λ c, is_word c = true) s → remove_non_word s = s.
Proof.
  intros H. apply filter_all. eapply Forall_impl; [exact H|]. by intros c ->.
Qed.

Lemma collapse_token b w t :
  w ≠ [] → Forall (λ c, token_chr c = true) w →
  collapse b (w ++ t) = w ++ collapse false t.
Proof.
  intros Hne Hw. revert b Hne. induction Hw as [|c w Hc Hw IH]; intros b Hne; [done|].
  destruct (token_chr_facts c Hc) as (_ & _ & _ & Hsu & _).
  cbn [app collapse]. rewrite Hsu. f_equal.
  destruct w as [|c' w']; [done|]. by apply IH.
Qed.

Lemma collapse_clean ws b :
  Forall clean_token ws → collapse b (str_join (code "_") ws) = str_join (code "_") ws.
Proof.
  intros Hws. revert b. induction Hws as [|w rest [Hne Hw] Hrest IH]; intros b; [done|].
  cbn [str_join]. destruct rest as [|w2 rest].
  - rewrite <- (app_nil_r w) at 1. rewrite collapse_token by done. simpl.
    by rewrite app_nil_r.
  - rewrite collapse_token by done. f_equal.
    cbn [collapse]. change (is_space_or_underscore (code "_")) with true. cbv iota. f_equal.
    apply Forall_cons in Hrest as [[Hne2 Hw2] _].
    cbn [str_join] in *. apply IH.
Qed.

Lemma split_join_clean ws :
  ws ≠ [] → Forall clean_token ws → split (code "_") (str_join (code "_") ws) = ws.
Proof.
  intros Hne Hws. induction Hws as [|w rest [Hw Hchars] Hrest IH]; [done|].
  assert (Hno : code "_" ∉ w).
  { rewrite Forall_forall in Hchars. intros Hin%Hchars%token_chr_facts.
    by destruct Hin as (_ & _ & _ & _ & _ & ? & _). }
  cbn [str_join]. destruct rest as [|w2 rest]; [by apply split_without|].
  rewrite split_app_sep by done. f_equal. by apply IH.
Qed.

Lemma lower_clean s :
  Forall (λ c, token_chr c = true ∨ c = code "_") s → lower s = s.
Proof.
  intros H. unfold lower. rewrite is_ascii_forallb by (by apply clean_is_ascii).
  by apply lower_ascii_clean.
Qed.

(** Inside a word the stop-word pattern finds no boundary. *)
Lemma sub_empty_inside_word prev s :
  is_word_opt prev = true → Forall (λ c, is_word c = true) s →
  sub_empty match_stop_word O prev s = s.
Proof.
  intros Hprev Hs. revert prev Hprev.
  induction Hs as [|c t Hc Ht IH]; intros prev Hprev; [done|].
  cbn [sub_empty]. unfold match_stop_word, word_boundary.
  rewrite Hprev. cbn [head is_word_opt from_option]. rewrite Hc. cbn [xorb].
  f_equal. by apply IH.
Qed.

Lemma match_ci_same_length a w prev before rest :
  Forall (λ c, is_ascii c = true) w →
  length a = length w → match_ci a prev w = Some (before, rest) →
  lower_ascii a = lower_ascii w.
Proof.
  intros Hw. revert a prev. induction Hw as [|c w Hc Hw IH]; intros [|x a] prev Hlen; try done.
  simpl. unfold match_chr_ci. rewrite Hc.
  destruct (chr_eqb (lower_chr x) (lower_chr c)) eqn:E; [|done].
  apply chr_eqb_true in E. intros Hm. rewrite E. f_equal.
  apply (IH a (Some c)); [by injection Hlen|done].
Qed.

(** A word that is not a stop word is matched by no alternative. *)
Lemma match_alternatives_other_word alts w prev :
  Forall (λ a : str, (a ≠ [] ∧ Forall (λ c, is_lower c = true) a) ∧ lower_ascii a = a) alts →
  Forall (λ c, is_word c = true) w → Forall (λ c, is_ascii c = true) w →
  lower_ascii w ∉ alts →
  match_alternatives alts prev w = None.
Proof.
  intros Halts Hw Hascii Hnot.
  induction Halts as [|a alts' [[Hane Ha] Hlow] _ IH]; [done|].
  apply not_elem_of_cons in Hnot as [Hna Hnot]. cbn [match_alternatives].
  destruct (match_ci a prev w) as [[before rest]|] eqn:Hm; [|by apply IH].
  destruct (word_boundary before rest) eqn:Hb; [|by apply IH].
  exfalso. apply Hna.
  assert (Hlen : length a = length w).
  { apply (match_ci_whole_word a w prev [] before rest); try done.
    by rewrite app_nil_r. }
  rewrite <- Hlow. symmetry. by eapply match_ci_same_length.
Qed.

Lemma stop_words_shape :
  Forall (λ a : str, (a ≠ [] ∧ Forall (λ c, is_lower c = true) a) ∧ lower_ascii a = a)
    stop_words.
Proof. compute_done. Qed.

Lemma remove_stop_words_other_word w :
  Forall (λ c, is_word c = true) w → Forall (λ c, is_ascii c = true) w →
  lower_ascii w ∉ stop_words → remove_stop_words w = w.
Proof.
  intros Hw Hascii Hnot. unfold remove_stop_words. destruct w as [|c t]; [done|].
  cbn [sub_empty]. unfold match_stop_word.
  rewrite match_alternatives_other_word by (done || apply stop_words_shape).
  apply Forall_cons in Hw as [Hc Ht].
  destruct (word_boundary None (c :: t)); f_equal; by apply sub_empty_inside_word.
Qed.

End clean_names.

(** Property X18. A name made of at most [max_words] tokens of lowercase
    letters and digits joined by single underscores, not longer than
    [max_length] and not itself a stop word, is returned unchanged. *)
Theorem sanitize_filename_clean_name (U : Unicode) ws max_length max_words :
  ws ≠ [] → Forall clean_token ws →
  str_join (code "_") ws ∉ stop_words →
  (Z.of_nat (length ws) ≤ max_words)%Z →
  (Z.of_nat (length (str_join (code "_") ws)) ≤ max_length)%Z →
  sanitize_filename (str_join (code "_") ws) max_length max_words = str_join (code "_") ws.
Proof.
  intros Hne Hws Hstop Hwords Hlen.
  pose proof (clean_name_chars ws Hne Hws) as Hname. cbv zeta in Hname.
  destruct Hname as (Hchars & (x & Hx & Hxt) & (y & Hy & Hyt)).
  assert (Hword : Forall (λ c, is_word c = true) (str_join (code "_") ws)).
  { eapply Forall_impl; [exact Hchars|]. intros c [Hc| ->]; [|done].
    by destruct (token_chr_facts c Hc) as (_ & ? & _). }
  assert (Hdot : path.extsep ∉ str_join (code "_") ws).
  { rewrite Forall_forall in Hchars. intros [Hc|Hc]%Hchars; [|done].
    by destruct (token_chr_facts _ Hc) as (_ & _ & _ & _ & _ & _ & ?). }
  destruct (token_chr_facts x Hxt) as (_ & _ & Hxs & _ & _ & Hxu & _).
  destruct (token_chr_facts y Hyt) as (_ & _ & Hys & _ & _ & Hyu & _).
  unfold sanitize_filename.
  rewrite splitext_no_dot by done. cbn [fst].
  rewrite remove_stop_words_other_word
    by (done || (by apply clean_is_ascii) || by rewrite lower_ascii_clean).
  rewrite remove_non_word_words by done.
  rewrite (strip_keep is_space _ x y) by done.
  rewrite collapse_clean by done.
  rewrite lower_clean by done.
  rewrite (strip_keep _ _ x y) by (done || by apply chr_eqb_false).
  rewrite split_join_clean by done.
  rewrite (filter_all _ ws) by (eapply Forall_impl; [exact Hws|]; by intros w [? _]).
  rewrite take_all_Z by done.
  rewrite bool_decide_eq_false_2 by (intros E; by rewrite E in Hx).
  by apply take_all_Z.
Qed.

Lemma sanitize_filename_clean_name_witness :
  sanitize_filename (U := unicode_model.latin) $"annual_report_2024" 50 5
  = $"annual_report_2024".
Proof.
  apply (sanitize_filename_clean_name unicode_model.latin
           [ $"annual"; $"report"; $"2024" ] 50 5).
  - done.
  - repeat constructor; compute_done.
  - compute_done.
  - simpl. lia.
  - simpl. lia.
Defined.

(** A clean name that is a stop word is not kept. *)
Example sanitize_filename_stop_word_name (U : Unicode) :
  sanitize_filename $"summary" 50 5 = $"untitled"
  ∧ sanitize_filename (sanitize_filename $"the_" 50 5) 50 5 = $"untitled"
  ∧ sanitize_filename $"the_" 50 5 = $"the".
Proof. vm_compute. repeat split. Qed.
